(** * The alert pipeline of winston-logger: error serialization, truncation,
      the Discord rate limiter and the Discord webhook transport.

    The development is a shallow embedding of
      - src/utils/truncation.ts          (module [Truncation])
      - src/utils/validation.ts          (module [Validation])
      - src/config/config-validator.ts   (module [ConfigValidator], limits part)
      - src/utils/error-serialization.ts (module [ErrorSerialization])
      - src/transports/discord-rate-limiter.ts    (module [RateLimiter])
      - src/transports/discord-webhook-transport.ts (module [Transport])
    followed by the properties proved about them. *)

From Stdlib Require Import ZArith String Ascii DecimalString.
From Stdlib.Strings Require Byte.
From stdpp Require Import base option list gmap.
From Equations Require Import Equations.

Set Warnings "-register-all".
Local Open Scope Z_scope.

(** ** JavaScript data *)

Module Js.

(** A JavaScript string is a sequence of UTF-16 code units; [length] and
    [substring] count code units. *)
Definition char16 : Type := N.
Definition jsString : Type := list char16.

(** A string literal of the source whose characters are all ASCII. *)
Definition lit (s : string) : jsString :=
  map N_of_ascii (list_ascii_of_string s).

(** The two emoji of the message template, as surrogate pairs. *)
Definition speechBalloon : jsString := [55357%N; 56492%N].
Definition policeLight : jsString := [55357%N; 57000%N].

(** Numbers.  Only the integral values and NaN are represented; fractions
    and the infinities are outside the model. *)
Inductive number : Type :=
| NaN
| Num (z : Z).

Definition nadd (a b : number) : number :=
  match a, b with Num x, Num y => Num (x + y) | _, _ => NaN end.
Definition nsub (a b : number) : number :=
  match a, b with Num x, Num y => Num (x - y) | _, _ => NaN end.
Definition nmul (a b : number) : number :=
  match a, b with Num x, Num y => Num (x * y) | _, _ => NaN end.
(** Comparisons with NaN are false. *)
Definition nle (a b : number) : bool :=
  match a, b with Num x, Num y => x <=? y | _, _ => false end.
Definition nlt (a b : number) : bool :=
  match a, b with Num x, Num y => x <? y | _, _ => false end.
Definition nge (a b : number) : bool := nle b a.
Definition ngt (a b : number) : bool := nlt b a.
(** [Math.max]. *)
Definition nmax (a b : number) : number :=
  match a, b with Num x, Num y => Num (Z.max x y) | _, _ => NaN end.
Definition isNaN (a : number) : bool :=
  match a with NaN => true | Num _ => false end.

(** Values of type [unknown] / [any].  An object is the list of its
    properties (own and inherited), first binding wins. *)
Inductive JsValue : Type :=
| JsUndefined
| JsNull
| JsBoolean (b : bool)
| JsNumber (n : number)
| JsBigInt (z : Z)
| JsString (s : jsString)
| JsSymbol
| JsFunction
| JsObject (props : list (jsString * JsValue)).

Inductive TypeTag : Type :=
| TUndefined | TObject | TBoolean | TNumber | TBigInt | TString | TSymbol
| TFunction.

Definition typeof (v : JsValue) : TypeTag :=
  match v with
  | JsUndefined => TUndefined
  | JsNull => TObject
  | JsBoolean _ => TBoolean
  | JsNumber _ => TNumber
  | JsBigInt _ => TBigInt
  | JsString _ => TString
  | JsSymbol => TSymbol
  | JsFunction => TFunction
  | JsObject _ => TObject
  end.

Definition isObjectTag (t : TypeTag) : bool :=
  match t with TObject => true | _ => false end.
Definition isStringTag (t : TypeTag) : bool :=
  match t with TString => true | _ => false end.

Definition isNull (v : JsValue) : bool :=
  match v with JsNull => true | _ => false end.

(** ToBoolean. *)
Definition truthyString (s : jsString) : bool :=
  match s with [] => false | _ :: _ => true end.
Definition truthyNumber (n : number) : bool :=
  match n with NaN => false | Num z => negb (z =? 0) end.
Definition truthy (v : JsValue) : bool :=
  match v with
  | JsUndefined | JsNull => false
  | JsBoolean b => b
  | JsNumber n => truthyNumber n
  | JsBigInt z => negb (z =? 0)
  | JsString s => truthyString s
  | JsSymbol | JsFunction | JsObject _ => true
  end.

Fixpoint assoc (key : jsString) (props : list (jsString * JsValue))
  : option JsValue :=
  match props with
  | [] => None
  | (k, v) :: rest => if decide (k = key) then Some v else assoc key rest
  end.

(** [key in v], for a non-null object [v]. *)
Definition hasProp (key : jsString) (v : JsValue) : bool :=
  match v with
  | JsObject props => bool_decide (is_Some (assoc key props))
  | _ => false
  end.

(** [v.key]; reading a missing property gives [undefined]. *)
Definition getProp (key : jsString) (v : JsValue) : JsValue :=
  match v with
  | JsObject props => default JsUndefined (assoc key props)
  | _ => JsUndefined
  end.

(** [str.substring(indexStart, indexEnd)]: both indices are clamped to
    [0, length] and swapped when out of order. *)
Definition clampIndex (len : nat) (i : Z) : nat := Nat.min (Z.to_nat i) len.
Definition substring (s : jsString) (indexStart indexEnd : Z) : jsString :=
  let a := clampIndex (length s) indexStart in
  let b := clampIndex (length s) indexEnd in
  take (Nat.max a b - Nat.min a b) (drop (Nat.min a b) s).

(** [parts.join(sep)]. *)
Fixpoint join (sep : jsString) (parts : list jsString) : jsString :=
  match parts with
  | [] => []
  | [p] => p
  | p :: rest => p ++ sep ++ join sep rest
  end.

(** [a || b] on optional strings ([undefined] and the empty string are
    falsy). *)
Definition orString (a : option jsString) (b : jsString) : jsString :=
  match a with
  | Some s => if truthyString s then s else b
  | None => b
  end.

End Js.

(** ** src/utils/truncation.ts *)

Module Truncation.
Import Js.

Definition ellipsis : jsString := lit "...".

Definition truncateString (str : jsString) (limit : Z) : jsString :=
  if negb (truthyString str) || (Z.of_nat (length str) <=? limit)
  then str
  else substring str 0 (limit - 3) ++ ellipsis.

Section Stringify.
(** [String(value)] and [JSON.stringify(value)] of the host; the latter
    is [None] when it throws. *)
Variable String_ : JsValue -> jsString.
Variable JSON_stringify : JsValue -> option jsString.

Definition stringifyAndTruncate (value : JsValue) (limit : Z) : jsString :=
  match value with
  | JsUndefined | JsNull => String_ value
  | _ =>
    let str :=
      if isStringTag (typeof value) then
        match value with JsString s => s | _ => String_ value end
      else if isObjectTag (typeof value) then
        match JSON_stringify value with
        | Some s => s
        | None => String_ value
        end
      else String_ value in
    truncateString str limit
  end.
End Stringify.

End Truncation.

(** ** src/utils/validation.ts *)

Module Validation.
Import Js.

Definition isErrorLike (value : JsValue) : bool :=
  negb (isNull value)
  && isObjectTag (typeof value)
  && hasProp (lit "message") value
  && isStringTag (typeof (getProp (lit "message") value)).

Definition VALID_LOG_LEVELS : list jsString :=
  [lit "silly"; lit "debug"; lit "info"; lit "warn"; lit "error"].

Definition isValidLogLevel (level : jsString) : bool :=
  bool_decide (level ∈ VALID_LOG_LEVELS).

(** [s.startsWith(p)]. *)
Definition startsWith (s p : jsString) : bool :=
  bool_decide (take (length p) s = p).

(** The two checks take a [string] by their signature and test
    [typeof id === 'string'] all the same; the argument is any value. *)
Definition isValidSessionID (id : JsValue) : bool :=
  match id with
  | JsString s => startsWith s (lit "sid-") && bool_decide (4 < length s)%nat
  | _ => false
  end.

Definition isValidErrorID (id : JsValue) : bool :=
  match id with
  | JsString s => startsWith s (lit "eid-") && bool_decide (4 < length s)%nat
  | _ => false
  end.

Definition isNonEmptyString (value : JsValue) : bool :=
  match value with
  | JsString s => bool_decide (0 < length s)%nat
  | _ => false
  end.

End Validation.

(** ** src/utils/id-generation.ts *)

Module IdGeneration.
Import Js.

(** [buffer.toString('hex')]: two lower-case digits per byte. *)
Definition hexDigit (n : N) : char16 :=
  if (n <? 10)%N then (48 + n)%N else (87 + n)%N.

Definition toHex (bytes : list Byte.byte) : jsString :=
  flat_map (fun b => [hexDigit (Byte.to_N b / 16); hexDigit (Byte.to_N b mod 16)])
    bytes.

(** The argument is what [randomBytes(8)] returned. *)
Definition createSessionID (randomBytes8 : list Byte.byte) : jsString :=
  lit "sid-" ++ toHex randomBytes8.

Definition createErrorID (randomBytes8 : list Byte.byte) : jsString :=
  lit "eid-" ++ toHex randomBytes8.

(** The code units [0-9a-f]. *)
Definition isHexDigit (c : char16) : bool :=
  ((48 <=? c) && (c <=? 57) || (97 <=? c) && (c <=? 102))%N.

End IdGeneration.

(** ** src/types/index.ts *)

Module Types.
Import Js.

(** [code?: string | number]. *)
Inductive Code : Type :=
| CodeString (s : jsString)
| CodeNumber (n : number).

(** [response?: { status?, statusText?, data? }]; [status] and
    [statusText] are copied unchecked from the error. *)
Record ResponseDetails : Type := mkResponseDetails {
  status : JsValue;
  statusText : JsValue;
  data : option jsString
}.

Inductive ErrorObject : Type := mkErrorObject {
  name : option jsString;
  message : jsString;
  stack : option jsString;
  code : option Code;
  cause : option ErrorObject;
  response : option ResponseDetails
}.

Record SerializationLimits : Type := mkLimits {
  stackLimit : Z;
  responseDataLimit : Z;
  causeMaxDepth : Z
}.

(** ['silly' | 'debug' | 'info' | 'warn' | 'error']. *)
Inductive LogLevel : Type :=
| L_silly | L_debug | L_info | L_warn | L_error.

End Types.

(** ** src/config/config-validator.ts, the limits *)

Module ConfigValidator.
Import Types.



End ConfigValidator.

(** ** src/utils/error-serialization.ts *)

Module ErrorSerialization.
Import Js Types Truncation Validation.

Definition DEFAULT_LIMITS : SerializationLimits :=
  {| stackLimit := 1000; responseDataLimit := 500; causeMaxDepth := 3 |}.

(** What [serialize-error] returns, by its declared type: the optional
    string fields [name], [message], [stack], an optional [code], and the
    untyped [cause] and [response] properties ([None]: not [in] the
    object). *)
Record SerializedError : Type := mkSerialized {
  s_name : option jsString;
  s_message : option jsString;
  s_stack : option jsString;
  s_code : option Code;
  s_cause : option JsValue;
  s_response : option JsValue
}.

(** [if (serialized.stack) ... truncateString(serialized.stack, limit)]. *)
Definition truncatedStack (serialized : SerializedError) (limit : Z)
  : option jsString :=
  match s_stack serialized with
  | Some st => if truthyString st then Some (truncateString st limit) else None
  | None => None
  end.

(** ['cause' in serialized && serialized.cause]. *)
Definition presentCause (serialized : SerializedError) : option JsValue :=
  match s_cause serialized with
  | Some c => if truthy c then Some c else None
  | None => None
  end.

Definition depthSentinel : ErrorObject :=
  {| name := Some (lit "DepthLimitError");
     message := lit "[Max Cause Depth Reached]";
     stack := None; code := None; cause := None; response := None |}.

Section Serializer.
(** The library function [serializeError] of the package
    [serialize-error], and the host's [String] and [JSON.stringify]. *)
Variable baseSerializeError : JsValue -> SerializedError.
Variable String_ : JsValue -> jsString.
Variable JSON_stringify : JsValue -> option jsString.

Equations serializeCause (cause_ : JsValue) (maxDepth currentDepth : Z)
    (limits : SerializationLimits) : ErrorObject
  by wf (Z.to_nat (maxDepth + 1 - currentDepth)) lt :=
serializeCause cause_ maxDepth currentDepth limits
    with Z_lt_dec maxDepth currentDepth := {
  | left _ => depthSentinel
  | right _ =>
    if negb (isErrorLike cause_) then
      {| name := Some (lit "UnknownCause");
         message := String_ cause_;
         stack := None; code := None; cause := None; response := None |}
    else
      let serialized := baseSerializeError cause_ in
      {| name := s_name serialized;
         message := orString (s_message serialized) (lit "Unknown cause");
         stack := truncatedStack serialized (stackLimit limits);
         code := s_code serialized;
         cause :=
           match presentCause serialized with
           | Some c =>
             Some (serializeCause c maxDepth (currentDepth + 1) limits)
           | None => None
           end;
         response := None |} }.
Next Obligation. lia. Qed.

Definition serializeResponse (serialized : SerializedError)
    (limits : SerializationLimits) : option ResponseDetails :=
  match s_response serialized with
  | Some r =>
    if truthy r && isObjectTag (typeof r) then
      Some {| status := getProp (lit "status") r;
              statusText := getProp (lit "statusText") r;
              data :=
                if truthy (getProp (lit "data") r)
                then Some (stringifyAndTruncate String_ JSON_stringify
                             (getProp (lit "data") r)
                             (responseDataLimit limits))
                else None |}
    else None
  | None => None
  end.

Definition serializeError (error_ : JsValue) (limits : SerializationLimits)
  : ErrorObject :=
  if negb (isErrorLike error_) then
    {| name := Some (lit "UnknownError");
       message := String_ error_;
       stack := None; code := None; cause := None; response := None |}
  else
    let serialized := baseSerializeError error_ in
    {| name := s_name serialized;
       message := orString (s_message serialized) (lit "Unknown error");
       stack := truncatedStack serialized (stackLimit limits);
       code := s_code serialized;
       cause :=
         match presentCause serialized with
         | Some c => Some (serializeCause c (causeMaxDepth limits) 1 limits)
         | None => None
         end;
       response := serializeResponse serialized limits |}.
End Serializer.




(** A node whose stack, if it has one, is not empty and within
    [limit]. *)
Definition stackWithin (limit : Z) (n : ErrorObject) : Prop :=
  forall st, stack n = Some st ->
             st <> [] /\ Z.of_nat (length st) <= limit.

(** The nodes of a tree, the root first. *)
Fixpoint nodes (e : ErrorObject) : list ErrorObject :=
  e :: match cause e with Some c => nodes c | None => [] end.

End ErrorSerialization.

(** ** src/transports/discord-rate-limiter.ts *)

Module RateLimiter.
Import Js.

Record RateLimitState : Type := mkRateLimitState {
  remaining : number;
  resetAt : number;
  isLimited : bool;
  retryAfter : number
}.

(** [Record<string, string>]: the response headers. *)
Abbreviation Headers := (gmap jsString jsString).

(** [private state: Map<string, RateLimitState>]. *)
Abbreviation LimiterState := (gmap jsString RateLimitState).

Definition defaultLimit : number := Num 30.

(** A header that is present and not the empty string. *)
Definition header (key : string) (headers : Headers) : option jsString :=
  match headers !! lit key with
  | Some h => if truthyString h then Some h else None
  | None => None
  end.

(** The methods read the clock through [Date.now()]; it is the argument
    [now].  A method that mutates the map returns the new map. *)

(** What [isRateLimited] writes into a state whose penalty is over. *)
Definition expired (state : RateLimitState) : RateLimitState :=
  {| remaining := defaultLimit; resetAt := resetAt state; isLimited := false;
     retryAfter := retryAfter state |}.

Definition isRateLimited (now : Z) (webhookUrl : jsString)
    (st : LimiterState) : bool * LimiterState :=
  match st !! webhookUrl with
  | None => (false, st)
  | Some state =>
    let state' :=
      if isLimited state && nge (Num now) (resetAt state)
      then expired state
      else state in
    (isLimited state' || nle (remaining state') (Num 0),
     <[webhookUrl := state']> st)
  end.

Definition getWaitTime (now : Z) (webhookUrl : jsString)
    (st : LimiterState) : number :=
  match st !! webhookUrl with
  | None => Num 0
  | Some state =>
    if isLimited state then nmax (Num 0) (nsub (resetAt state) (Num now))
    else if nle (remaining state) (Num 0)
    then nmax (Num 0) (nsub (resetAt state) (Num now))
    else Num 0
  end.

Section Parsing.
(** [parseInt(s, 10)] and [parseFloat(s)] of the host. *)
Variable parseInt10 : jsString -> number.
Variable parseFloat : jsString -> number.

Definition recordSuccess (now : Z) (webhookUrl : jsString)
    (headers : Headers) (st : LimiterState) : LimiterState :=
  let remaining_ :=
    match header "x-ratelimit-remaining" headers with
    | Some h => parseInt10 h
    | None => nsub defaultLimit (Num 1)
    end in
  let resetAfter :=
    match header "x-ratelimit-reset-after" headers with
    | Some h => parseFloat h
    | None => Num 2
    end in
  let resetAt_ := nadd (Num now) (nmul resetAfter (Num 1000)) in
  <[webhookUrl := {| remaining := remaining_; resetAt := resetAt_;
                     isLimited := false; retryAfter := Num 0 |}]> st.
End Parsing.

Definition recordRateLimit (now : Z) (webhookUrl : jsString)
    (retryAfter_ : number) (st : LimiterState) : LimiterState :=
  let resetAt_ := nadd (Num now) (nmul retryAfter_ (Num 1000)) in
  <[webhookUrl := {| remaining := Num 0; resetAt := resetAt_;
                     isLimited := true; retryAfter := retryAfter_ |}]> st.

Definition reset (webhookUrl : jsString) (st : LimiterState) : LimiterState :=
  delete webhookUrl st.

Definition resetAll (st : LimiterState) : LimiterState := ∅.

End RateLimiter.

(** ** src/transports/discord-webhook-transport.ts *)

Module Transport.
Import Js Types Truncation RateLimiter.

(** [LogEntry], as [log(info: any, ...)] receives it.  The alert flag is
    read through [any]: an unset flag is [undefined]. *)
Record LogEntry : Type := mkLogEntry {
  timestamp : jsString;
  level : LogLevel;
  origin : jsString;
  identifier : jsString;
  sendDiscordWebhook : JsValue;
  message : jsString;
  service : jsString;
  sessionID : option jsString;
  errorID : option jsString;
  error : option ErrorObject;
  comment : option jsString;
  meta : option JsValue
}.

Record DiscordTransportOptions : Type := mkOptions {
  opt_webhookUrls : option (list jsString);
  opt_maxRetries : option Z;
  opt_retryDelay : option Z;
  opt_maxMessageLength : option Z
}.

(** The configuration fields of a [DiscordWebhookTransport]; its rate
    limiter is mutable and lives in the [World]. *)
Record DiscordWebhookTransport : Type := mkTransport {
  webhookUrls : list jsString;
  maxRetries : Z;
  retryDelay : Z;
  maxMessageLength : Z
}.

Definition constructor (opts : DiscordTransportOptions)
  : DiscordWebhookTransport :=
  {| webhookUrls := default [] (opt_webhookUrls opts);
     maxRetries := default 3 (opt_maxRetries opts);
     retryDelay := default 1000 (opt_retryDelay opts);
     maxMessageLength := default 2000 (opt_maxMessageLength opts) |}.

(** The answer of one [axios.post]. *)
Record Response : Type := mkResponse {
  r_status : Z;
  r_headers : Headers;
  r_data : JsValue
}.

(** How the promise of [axios.post] settles: fulfilled with a response,
    rejected with an [AxiosError] (carrying the response when the server
    answered), or rejected with some other value. *)
Inductive PostOutcome : Type :=
| Fulfilled (response : Response)
| RejectedAxios (response : option Response)
| RejectedOther.

Inductive Event : Type :=
| Logged (info : LogEntry)
| ErrorEvent (errorMessage : jsString).

(** The effects of a dispatch task, in the order the task issues them. *)
Inductive Effect : Type :=
| Post (webhookUrl content : jsString)
| Sleep (ms : number)
| Emit (e : Event).

(** The state a transport runs in: the clock [Date.now()], the map of
    its rate limiter, the effects issued so far (oldest first), the
    callbacks queued with [setImmediate], and how many times the
    completion callback of [log] was invoked.  Only sleeping moves the
    clock: a request takes no time on it. *)
Record World : Type := mkWorld {
  now : Z;
  limiter : LimiterState;
  trace : list Effect;
  immediates : list Event;
  callbacks : nat
}.

Definition setLimiter (st : LimiterState) (w : World) : World :=
  {| now := now w; limiter := st; trace := trace w;
     immediates := immediates w; callbacks := callbacks w |}.

Definition issue (e : Effect) (w : World) : World :=
  {| now := now w; limiter := limiter w; trace := trace w ++ [e];
     immediates := immediates w; callbacks := callbacks w |}.

(** [setTimeout] treats a negative or NaN delay as no delay. *)
Definition elapsed (ms : number) : Z :=
  match ms with Num z => Z.max 0 z | NaN => 0 end.

(** [await this.sleep(ms)], with an ideal timer: the clock advances by
    the delay. *)
Definition sleep (ms : number) (w : World) : World :=
  {| now := now w + elapsed ms; limiter := limiter w;
     trace := trace w ++ [Sleep ms];
     immediates := immediates w; callbacks := callbacks w |}.

Definition setImmediate (e : Event) (w : World) : World :=
  {| now := now w; limiter := limiter w; trace := trace w;
     immediates := immediates w ++ [e]; callbacks := callbacks w |}.

Definition callback (w : World) : World :=
  {| now := now w; limiter := limiter w; trace := trace w;
     immediates := immediates w; callbacks := S (callbacks w) |}.

(** How a promise settles. *)
Inductive Settled : Type :=
| Resolved
| Rejected (errorMessage : jsString).

(** How a synchronous call completes. *)
Inductive Completion : Type :=
| Normal
| Throw (errorMessage : jsString).

Definition levelName (l : LogLevel) : jsString :=
  match l with
  | L_silly => lit "silly" | L_debug => lit "debug" | L_info => lit "info"
  | L_warn => lit "warn" | L_error => lit "error"
  end.

(** [toUpperCase] on the letters a-z. *)
Definition toUpperCase (s : jsString) : jsString :=
  map (fun c => if ((97 <=? c) && (c <=? 122))%N then (c - 32)%N else c) s.

Definition nl : jsString := [10%N].

Definition truthyCode (c : Code) : bool :=
  match c with
  | CodeString s => truthyString s
  | CodeNumber n => truthyNumber n
  end.

Definition truthyOpt (s : option jsString) : option jsString :=
  match s with
  | Some x => if truthyString x then Some x else None
  | None => None
  end.

Section Dispatcher.
(** The host: number parsing and printing, and the network, whose
    answer to a request may depend on everything issued before it. *)
Variable parseInt10 : jsString -> number.
Variable parseFloat : jsString -> number.
Variable numberToString : number -> jsString.
Variable axios_post : list Effect -> jsString -> jsString -> PostOutcome.

Variable this : DiscordWebhookTransport.

Definition codeToString (c : Code) : jsString :=
  match c with
  | CodeString s => s
  | CodeNumber n => numberToString n
  end.

Definition formatHeader (info : LogEntry) : jsString :=
  lit "**[" ++ toUpperCase (levelName (level info)) ++ lit "]** "
  ++ origin info ++ lit " > " ++ identifier info.

Definition formatError (e : ErrorObject) : jsString :=
  let errorParts :=
    [policeLight ++ lit " **" ++ orString (name e) (lit "Error")
     ++ lit "**: " ++ Types.message e]
    ++ match code e with
       | Some c =>
         if truthyCode c then [lit "Code: " ++ codeToString c] else []
       | None => []
       end
    ++ match truthyOpt (stack e) with
       | Some st =>
         [lit "```" ++ nl ++ truncateString st 500 ++ nl ++ lit "```"]
       | None => []
       end in
  join nl errorParts.

Definition formatParts (info : LogEntry) : list jsString :=
  let ids :=
    match truthyOpt (errorID info) with
    | Some i => [lit "errorID: " ++ i]
    | None => []
    end
    ++ match truthyOpt (sessionID info) with
       | Some i => [lit "sessionID: " ++ i]
       | None => []
       end in
  [formatHeader info; message info]
  ++ (if bool_decide (0 < length ids)%nat then [join (lit " | ") ids] else [])
  ++ match truthyOpt (comment info) with
     | Some c => [speechBalloon ++ lit " " ++ c]
     | None => []
     end
  ++ match error info with
     | Some e => [formatError e]
     | None => []
     end.

Definition formatMessage (info : LogEntry) : jsString :=
  let fullMessage := join (nl ++ nl) (formatParts info) in
  truncateString fullMessage (maxMessageLength this).

Definition getRetryAfter (response : option Response) : number :=
  let fromBody :=
    match response with
    | Some r =>
      if truthy (r_data r) && isObjectTag (typeof (r_data r)) then
        match getProp (lit "retry_after") (r_data r) with
        | JsNumber n => if truthyNumber n then n else Num 2
        | _ => Num 2
        end
      else Num 2
    | None => Num 2
    end in
  match response ≫= (fun r => header "retry-after" (r_headers r)) with
  | Some retryAfterHeader =>
    let retryAfter := parseFloat retryAfterHeader in
    if negb (isNaN retryAfter) then retryAfter else fromBody
  | None => fromBody
  end.

(** The rate-limit check that opens every attempt. *)
Definition awaitRateLimit (webhookUrl : jsString) (w : World) : World :=
  let '(limited, st) := isRateLimited (now w) webhookUrl (limiter w) in
  let w1 := setLimiter st w in
  if limited then
    let waitTime := getWaitTime (now w1) webhookUrl (limiter w1) in
    if ngt waitTime (Num 0) then sleep waitTime w1 else w1
  else w1.

(** The loop [for (attempt = 0; attempt < maxRetries; attempt++)] of
    [sendToWebhook]: [budget] counts the iterations still allowed,
    [attempt] is the loop variable. *)
Fixpoint attempts (budget : nat) (attempt : Z) (webhookUrl content : jsString)
    (w : World) : World * bool :=
  match budget with
  | O => (w, false)
  | S budget' =>
    let w1 := awaitRateLimit webhookUrl w in
    let outcome := axios_post (trace w1) webhookUrl content in
    let w2 := issue (Post webhookUrl content) w1 in
    let backoff :=
      attempts budget' (attempt + 1) webhookUrl content
        (sleep (Num (retryDelay this * 2 ^ attempt)) w2) in
    match outcome with
    | Fulfilled response =>
      (setLimiter
         (recordSuccess parseInt10 parseFloat (now w2) webhookUrl
            (r_headers response) (limiter w2)) w2,
       true)
    | RejectedAxios response =>
      if bool_decide ((r_status <$> response) = Some 429) then
        let retryAfter := getRetryAfter response in
        let w3 :=
          setLimiter
            (recordRateLimit (now w2) webhookUrl retryAfter (limiter w2))
            w2 in
        attempts budget' (attempt + 1) webhookUrl content
          (sleep (nmul retryAfter (Num 1000)) w3)
      else
        match response with
        | Some r =>
          if (400 <=? r_status r) && (r_status r <? 500)
          then (w2, false)
          else backoff
        | None => backoff
        end
    | RejectedOther => backoff
    end
  end.

Definition sendToWebhook (webhookUrl content : jsString) (w : World)
  : World * bool :=
  attempts (Z.to_nat (maxRetries this)) 0 webhookUrl content w.

(** The loop [for (const webhookUrl of this.webhookUrls)] and the
    final [throw] of [sendToDiscord]. *)
Fixpoint tryWebhooks (urls : list jsString) (content : jsString)
    (w : World) : World * Settled :=
  match urls with
  | [] => (w, Rejected (lit "All Discord webhook URLs failed"))
  | webhookUrl :: rest =>
    let '(w1, success) := sendToWebhook webhookUrl content w in
    if success then (w1, Resolved) else tryWebhooks rest content w1
  end.

Definition sendToDiscord (info : LogEntry) (w : World) : World * Settled :=
  let content := formatMessage info in
  tryWebhooks (webhookUrls this) content w.

(** [log]: the dispatch task it starts is run to its end; the
    rejection handler of the task emits the ['error'] event. *)
Definition log (info : LogEntry) (w : World) : World * Completion :=
  let w0 := setImmediate (Logged info) w in
  if negb (truthy (sendDiscordWebhook info)) then (callback w0, Normal)
  else
    let '(w1, settled) := sendToDiscord info w0 in
    let w2 :=
      match settled with
      | Resolved => w1
      | Rejected err =>
        issue (Emit (ErrorEvent (lit "Discord transport error: " ++ err))) w1
      end in
    (callback w2, Normal).
End Dispatcher.

(** The ['error'] event of a dispatch that failed on every endpoint. *)
Definition allFailed : Event :=
  ErrorEvent (lit "Discord transport error: All Discord webhook URLs failed").

(** [n] attempts on [webhookUrl] that each fail and back off, from the
    loop index [attempt] on. *)
Fixpoint backoffRun (this : DiscordWebhookTransport)
    (webhookUrl content : jsString) (n : nat) (attempt : Z) : list Effect :=
  match n with
  | O => []
  | S k =>
    Post webhookUrl content
    :: Sleep (Num (retryDelay this * 2 ^ attempt))
    :: backoffRun this webhookUrl content k (attempt + 1)
  end.

(** The requests of a trace. *)
Definition isPost (e : Effect) : bool :=
  match e with Post _ _ => true | _ => false end.
Definition posts (t : list Effect) : list Effect := List.filter isPost t.

(** The answers the network gave to the requests among the effects [t],
    which were issued after the effects [before]. *)
Fixpoint answers
    (axios_post : list Effect -> jsString -> jsString -> PostOutcome)
    (before t : list Effect) : list PostOutcome :=
  match t with
  | [] => []
  | Post u c :: t' =>
    axios_post before u c :: answers axios_post (before ++ [Post u c]) t'
  | e :: t' => answers axios_post (before ++ [e]) t'
  end.

Definition isFulfilled (o : PostOutcome) : bool :=
  match o with Fulfilled _ => true | _ => false end.

(** The failures that [sendToWebhook] answers with a backoff: a 5xx or
    any other status outside 4xx, no response at all, an exception that
    is not an [AxiosError]. *)
Definition backsOff (o : PostOutcome) : bool :=
  match o with
  | Fulfilled _ => false
  | RejectedAxios (Some r) =>
    negb (r_status r =? 429)
    && negb ((400 <=? r_status r) && (r_status r <? 500))
  | RejectedAxios None => true
  | RejectedOther => true
  end.

(** The sleeps of a trace, and the time they take. *)
Definition sleptFor (t : list Effect) : Z :=
  foldr (fun e acc => match e with Sleep ms => elapsed ms + acc | _ => acc end)
    0 t.

(** From [w] to [w']: the trace was extended, by at most [n] requests
    and by [allowed] effects only, and the clock moved on by the time
    slept. *)
Definition runs (allowed : Effect -> Prop) (n : nat) (w w' : World) : Prop :=
  exists t,
    trace w' = trace w ++ t
    /\ (length (posts t) <= n)%nat
    /\ Forall allowed t
    /\ now w' = now w + sleptFor t.

(** A request to [webhookUrl] carrying [content], or a sleep. *)
Definition postOrSleep (webhookUrl content : jsString) (e : Effect) : Prop :=
  e = Post webhookUrl content \/ exists ms, e = Sleep ms.


(** What the answers to the requests of [t] say of an outcome: after a
    success the last effect is a request that was fulfilled and no
    earlier request was; after a failure no request was fulfilled. *)
Definition unfulfilled
    (axios_post : list Effect -> jsString -> jsString -> PostOutcome)
    (before t : list Effect) : Prop :=
  Forall (fun o => isFulfilled o = false) (answers axios_post before t).

Definition isResolved (s : Settled) : bool :=
  match s with Resolved => true | Rejected _ => false end.

Definition verdict
    (axios_post : list Effect -> jsString -> jsString -> PostOutcome)
    (content : jsString) (before t : list Effect) (success : bool) : Prop :=
  if success then
    exists t0 u r,
      t = t0 ++ [Post u content]
      /\ axios_post (before ++ t0) u content = Fulfilled r
      /\ unfulfilled axios_post before t0
  else unfulfilled axios_post before t.

End Transport.

(** ** src/utils/truncation.ts, [truncateObjectDepth] *)

Module ObjectDepth.
Import Js.

(** The objects [truncateObjectDepth] walks have an identity (the
    [WeakSet] of seen objects holds references) and may be shared or
    cyclic: a value is a primitive or a reference, and [heap] says which
    array or object a reference points to. *)
Inductive Primitive : Type :=
| PUndefined
| PNull
| PBoolean (b : bool)
| PNumber (n : number)
| PBigInt (z : Z)
| PString (s : jsString)
| PSymbol
| PFunction.

Definition loc : Type := positive.

Inductive Value : Type :=
| Prim (p : Primitive)
| Ref (l : loc).

(** An array with its items, or an object with its entries in the order
    of [Object.entries]. *)
Inductive HeapObject : Type :=
| Array (items : list Value)
| Object (entries : list (jsString * Value)).

(** The depth-limited copy. *)
Inductive Output : Type :=
| OPrim (p : Primitive)
| OArray (items : list Output)
| OObject (entries : list (jsString * Output)).

Definition circularMarker : Output := OPrim (PString (lit "[Circular]")).
Definition maxDepthMarker : Output :=
  OPrim (PString (lit "[Max Depth Reached]")).

Section Walk.
Variable heap : loc -> HeapObject.

(** [obj.map(item => f(item))] and the loop over [Object.entries(obj)],
    the set of seen objects passing from one call to the next. *)
Fixpoint mapItems (f : Value -> gset loc -> Output * gset loc)
    (items : list Value) (seen : gset loc) : list Output * gset loc :=
  match items with
  | [] => ([], seen)
  | item :: rest =>
    let '(o, seen1) := f item seen in
    let '(os, seen2) := mapItems f rest seen1 in
    (o :: os, seen2)
  end.

Fixpoint mapEntries (f : Value -> gset loc -> Output * gset loc)
    (entries : list (jsString * Value)) (seen : gset loc)
  : list (jsString * Output) * gset loc :=
  match entries with
  | [] => ([], seen)
  | (key, value) :: rest =>
    let '(o, seen1) := f value seen in
    let '(os, seen2) := mapEntries f rest seen1 in
    ((key, o) :: os, seen2)
  end.

(** The recursion, by the levels left: [levels] is
    [maxDepth - currentDepth], and [currentDepth >= maxDepth] is
    [levels = 0]. *)
Fixpoint walk (levels : nat) (obj : Value) (seen : gset loc)
  : Output * gset loc :=
  match obj with
  | Prim p => (OPrim p, seen)
  | Ref l =>
    if decide (l ∈ seen) then (circularMarker, seen)
    else
      match levels with
      | O => (maxDepthMarker, seen)
      | S levels' =>
        let seen1 := {[l]} ∪ seen in
        match heap l with
        | Array items =>
          let '(os, seen2) := mapItems (walk levels') items seen1 in
          (OArray os, seen2)
        | Object entries =>
          let '(os, seen2) := mapEntries (walk levels') entries seen1 in
          (OObject os, seen2)
        end
      end
  end.

(** The result, and the [WeakSet] as the call leaves it. *)
Definition truncateObjectDepth (obj : Value) (maxDepth currentDepth : Z)
    (seen : gset loc) : Output * gset loc :=
  walk (Z.to_nat (maxDepth - currentDepth)) obj seen.
End Walk.

(** How deep arrays and objects nest in a copy, and how many arrays and
    objects it has. *)
Fixpoint nesting (o : Output) : nat :=
  match o with
  | OPrim _ => 0
  | OArray items => S (foldr (fun i m => Nat.max (nesting i) m) 0%nat items)
  | OObject entries =>
    S (foldr (fun e m => Nat.max (nesting (snd e)) m) 0%nat entries)
  end.

Fixpoint containers (o : Output) : nat :=
  match o with
  | OPrim _ => 0
  | OArray items => S (foldr (fun i m => (containers i + m)%nat) 0%nat items)
  | OObject entries =>
    S (foldr (fun e m => (containers (snd e) + m)%nat) 0%nat entries)
  end.

(** The set of seen objects only grows, by one object for each array or
    object of the copy. *)
Definition accounted (seen : gset loc) (r : Output * gset loc) : Prop :=
  seen ⊆ snd r /\ (size (snd r) = size seen + containers (fst r))%nat.

End ObjectDepth.

(** ** src/logger/scoped-logger.ts *)

Module ScopedLogger.
Import Js Types Validation ErrorSerialization IdGeneration.

(** [LogEntries], the optional last argument of the logging methods. *)
Record LogEntries : Type := mkLogEntries {
  e_error : option JsValue;
  e_sendDiscordWebhook : option bool;
  e_comment : option jsString;
  e_meta : option JsValue;
  e_sessionID : option jsString;
  e_errorID : option jsString
}.

(** What [normalizeError] returns: a serialization, or the very value it
    was given, cast to [ErrorObject]. *)
Inductive NormalizedError : Type :=
| Serialized (e : ErrorObject)
| AsGiven (v : JsValue).

(** The entry handed to [winstonLogger.log]. *)
Record LogEntry : Type := mkLogEntry {
  timestamp : jsString;
  level : LogLevel;
  origin : jsString;
  identifier : jsString;
  message : jsString;
  service : jsString;
  sendDiscordWebhook : bool;
  sessionID : option jsString;
  errorID : option jsString;
  comment : option jsString;
  meta : option JsValue;
  error : option NormalizedError
}.

(** The fields of a [ScopedLogger] ([winstonLogger] apart). *)
Record ScopedLogger : Type := mkScopedLogger {
  this_origin : jsString;
  this_service : jsString;
  this_limits : SerializationLimits
}.

Definition isErrorLevel (l : LogLevel) : bool :=
  match l with L_error => true | _ => false end.

(** A method that calls [console.warn] returns the messages beside its
    result. *)
Definition normalizeSessionID (sessionID_ : option jsString)
  : option jsString * list jsString :=
  match sessionID_ with
  | None => (None, [])
  | Some s =>
    if negb (truthyString s) then (None, [])
    else if isValidSessionID (JsString s) then (Some s, [])
    else (None,
          [lit "Invalid sessionID format: " ++ s
           ++ lit ". Expected format: sid-{string}"])
  end.

(** [randomBytes8] is what [randomBytes(8)] returns if [createErrorID]
    is called. *)
Definition normalizeErrorID (randomBytes8 : list Byte.byte)
    (errorID_ : option jsString) (level_ : LogLevel)
  : option jsString * list jsString :=
  let given :=
    match errorID_ with
    | Some s => if truthyString s then Some s else None
    | None => None
    end in
  match given with
  | None =>
    if isErrorLevel level_
    then (Some (createErrorID randomBytes8), [])
    else (None, [])
  | Some s =>
    if isValidErrorID (JsString s) then (Some s, [])
    else ((if isErrorLevel level_
           then Some (createErrorID randomBytes8) else None),
          [lit "Invalid errorID format: " ++ s
           ++ lit ". Expected format: eid-{string}"])
  end.

Section Logger.
Variable baseSerializeError : JsValue -> SerializedError.
Variable String_ : JsValue -> jsString.
Variable JSON_stringify : JsValue -> option jsString.
Variable this : ScopedLogger.

Definition normalizeError (error_ : JsValue) : NormalizedError :=
  if isErrorLike error_ then
    Serialized (serializeError baseSerializeError String_ JSON_stringify
                  error_ (this_limits this))
  else if truthy error_ && isObjectTag (typeof error_)
          && hasProp (lit "message") error_ then
    AsGiven error_
  else
    Serialized (serializeError baseSerializeError String_ JSON_stringify
                  error_ (this_limits this)).

(** The private [log]: [now_] is [new Date().toISOString()]; the result
    is the warnings printed and the entry passed to winston. *)
Definition log (now_ : jsString) (randomBytes8 : list Byte.byte)
    (level_ : LogLevel) (message_ identifier_ : jsString)
    (entries : option LogEntries) : list jsString * LogEntry :=
  let '(sid, warnings1) := normalizeSessionID (entries ≫= e_sessionID) in
  let '(eid, warnings2) :=
    normalizeErrorID randomBytes8 (entries ≫= e_errorID) level_ in
  (warnings1 ++ warnings2,
   {| timestamp := now_;
      level := level_;
      origin := this_origin this;
      identifier := identifier_;
      message := message_;
      service := this_service this;
      sendDiscordWebhook := default false (entries ≫= e_sendDiscordWebhook);
      sessionID := sid;
      errorID := eid;
      comment :=
        match entries ≫= e_comment with
        | Some c => if truthyString c then Some c else None
        | None => None
        end;
      meta :=
        match entries ≫= e_meta with
        | Some m => if truthy m then Some m else None
        | None => None
        end;
      error :=
        match entries ≫= e_error with
        | Some e => if truthy e then Some (normalizeError e) else None
        | None => None
        end |}).

End Logger.

End ScopedLogger.

(** ** src/utils/component-filter.ts *)

Module ComponentFilter.
Import Js.

(** A log entry as the filter sees it: an object, read by key. *)
Abbreviation Entry := (gmap jsString JsValue).

Definition DEFAULT_COMPONENTS : list (jsString * list jsString) :=
  [(lit "console",
    map lit ["timestamp"; "level"; "origin"; "identifier"; "message";
             "sessionID"; "errorID"]%string);
   (lit "file",
    map lit ["timestamp"; "level"; "origin"; "identifier"; "message";
             "service"; "sessionID"; "errorID"; "error"; "comment"; "meta";
             "sendDiscordWebhook"]%string);
   (lit "errorFile",
    map lit ["timestamp"; "level"; "origin"; "identifier"; "message";
             "service"; "sessionID"; "errorID"; "error"; "comment";
             "meta"]%string);
   (lit "discord",
    map lit ["timestamp"; "level"; "origin"; "identifier"; "message";
             "sessionID"; "errorID"; "error"; "comment"]%string);
   (lit "sentry",
    map lit ["timestamp"; "level"; "origin"; "identifier"; "message";
             "service"; "sessionID"; "errorID"; "error"; "meta"]%string);
   (lit "gcp",
    map lit ["timestamp"; "level"; "origin"; "identifier"; "message";
             "service"; "sessionID"; "errorID"; "error"; "comment";
             "meta"]%string)].

Fixpoint lookupComponents (transportType : jsString)
    (table : list (jsString * list jsString)) : option (list jsString) :=
  match table with
  | [] => None
  | (k, cs) :: rest =>
    if decide (k = transportType) then Some cs
    else lookupComponents transportType rest
  end.

(** ['default' | LogEntryComponent[]]. *)
Inductive Components : Type :=
| Default
| Listed (components : list jsString).

(** [DEFAULT_COMPONENTS[transportType] || DEFAULT_COMPONENTS.file] for
    ['default'].  (Names that [DEFAULT_COMPONENTS] inherits from
    [Object.prototype] are not transport types and are left out.) *)
Definition componentList (components : Components) (transportType : jsString)
  : list jsString :=
  match components with
  | Default =>
    match lookupComponents transportType DEFAULT_COMPONENTS with
    | Some cs => cs
    | None => default [] (lookupComponents (lit "file") DEFAULT_COMPONENTS)
    end
  | Listed cs => cs
  end.

Definition isNullish (v : JsValue) : bool :=
  match v with JsNull | JsUndefined => true | _ => false end.

Definition isIdComponent (component : jsString) : bool :=
  bool_decide (component = lit "sessionID")
  || bool_decide (component = lit "errorID").

(** The body of the loop over the component list. *)
Definition keep (entry filtered : Entry) (component : jsString) : Entry :=
  match entry !! component with
  | Some value =>
    if negb (isNullish value) then <[component := value]> filtered
    else if isIdComponent component then <[component := JsNull]> filtered
    else filtered
  | None => filtered
  end.

Definition filterLogEntry (entry : Entry) (components : Components)
    (transportType : jsString) : Entry :=
  foldl (keep entry) ∅ (componentList components transportType).

(** What a listed component comes out as: its value, [null] for an
    identifier that is [null] or [undefined], or nothing. *)
Definition kept (entry : Entry) (component : jsString) : option JsValue :=
  match entry !! component with
  | Some value =>
    if negb (isNullish value) then Some value
    else if isIdComponent component then Some JsNull
    else None
  | None => None
  end.

Definition validComponents : list jsString :=
  map lit ["timestamp"; "level"; "origin"; "identifier";
           "sendDiscordWebhook"; "message"; "service"; "sessionID";
           "errorID"; "error"; "comment"; "meta"]%string.

Definition validateComponents (components : list jsString) : list jsString :=
  List.filter (fun c => negb (bool_decide (c ∈ validComponents))) components.

End ComponentFilter.

(** ** src/transports/transport-factory.ts, the filter format *)

Module TransportFactory.
Import Js ComponentFilter.

(** The transformation [createFilterFormat] wraps in a winston format:
    [{ ...info, ...filtered }]. *)
Definition filterFormat (components : Components) (transportType : jsString)
    (info : Entry) : Entry :=
  filterLogEntry info components transportType ∪ info.

End TransportFactory.

(** ** src/config/config-validator.ts, src/config/defaults.ts and
       src/logger/logger.ts *)

Module Config.
Import Js Types Validation Transport.

(** An optional property of an object literal: left out, written with
    the value [undefined], or written with a value. *)
Inductive Field (A : Type) : Type :=
| Absent
| Undefined
| Value (a : A).
Arguments Absent {A}.
Arguments Undefined {A}.
Arguments Value {A} a.

(** Reading the property. *)
Definition read {A : Type} (f : Field A) : option A :=
  match f with Value a => Some a | _ => None end.

(** [{ ...{ k: d }, ...{ k?: f } }.k]: a property that is written
    replaces the default, also when it is written as [undefined]. *)
Definition spread {A : Type} (d : A) (f : Field A) : option A :=
  match f with
  | Absent => Some d
  | Undefined => None
  | Value a => Some a
  end.

(** [Partial<SerializationLimits>]. *)
Record PartialLimits : Type := mkPartialLimits {
  p_stackLimit : Field Z;
  p_responseDataLimit : Field Z;
  p_causeMaxDepth : Field Z
}.

(** The transport configurations, with the properties the validator, the
    merge and the Discord branch of [createTransports] read. *)
Record BaseTransportConfig : Type := mkBase { enabled : bool }.

Record DiscordTransportConfig : Type := mkDiscord {
  discord_enabled : bool;
  discord_webhookUrls : Field (list jsString);
  discord_maxRetries : Field Z;
  discord_retryDelay : Field Z;
  discord_maxMessageLength : Field Z
}.

Record SentryTransportConfig : Type := mkSentry {
  sentry_enabled : bool;
  sentry_dsn : JsValue
}.

Record GCPTransportConfig : Type := mkGCP {
  gcp_enabled : bool;
  gcp_projectId : JsValue
}.

Record TransportConfigs : Type := mkTransports {
  console : option BaseTransportConfig;
  file : option BaseTransportConfig;
  errorFile : option BaseTransportConfig;
  discord : option DiscordTransportConfig;
  sentry : option SentryTransportConfig;
  gcp : option GCPTransportConfig
}.

Record LoggerConfig : Type := mkLoggerConfig {
  service : JsValue;
  transports : option TransportConfigs;
  limits : option PartialLimits;
  level : option LogLevel
}.

Record ValidationResult : Type := mkValidationResult {
  valid : bool;
  errors : list string
}.

Definition noTransports : TransportConfigs :=
  {| console := None; file := None; errorFile := None; discord := None;
     sentry := None; gcp := None |}.

(** [Object.values(transports).some(t => t?.enabled === true)]. *)
Definition hasEnabledTransport (t : TransportConfigs) : bool :=
  from_option enabled false (console t)
  || from_option enabled false (file t)
  || from_option enabled false (errorFile t)
  || from_option discord_enabled false (discord t)
  || from_option sentry_enabled false (sentry t)
  || from_option gcp_enabled false (gcp t).

(** [limit !== undefined && limit <= 0]. *)
Definition notPositive (f : Field Z) : bool :=
  match read f with Some z => z <=? 0 | None => false end.

(** [!value || !isNonEmptyString(value)]. *)
Definition missingString (v : JsValue) : bool :=
  negb (truthy v) || negb (isNonEmptyString v).

Definition when (b : bool) (message : string) : list string :=
  if b then [message] else [].

Definition validateConfig (config : LoggerConfig) : ValidationResult :=
  let transports_ := default noTransports (transports config) in
  let errors_ :=
    when (missingString (service config))
      "config.service is required and must be a non-empty string"
    ++ when (negb (hasEnabledTransport transports_))
         "At least one transport must be enabled"
    ++ match limits config with
       | Some l =>
         when (notPositive (p_stackLimit l))
           "limits.stackLimit must be a positive number"
         ++ when (notPositive (p_responseDataLimit l))
              "limits.responseDataLimit must be a positive number"
         ++ when (notPositive (p_causeMaxDepth l))
              "limits.causeMaxDepth must be a positive number"
       | None => []
       end
    ++ match discord transports_ with
       | Some d =>
         when (discord_enabled d
               && match read (discord_webhookUrls d) with
                  | Some urls => bool_decide (length urls = 0%nat)
                  | None => true
                  end)
           "transports.discord.webhookUrls must contain at least one URL when Discord transport is enabled"
       | None => []
       end
    ++ match sentry transports_ with
       | Some c =>
         when (sentry_enabled c && missingString (sentry_dsn c))
           "transports.sentry.dsn is required when Sentry transport is enabled"
       | None => []
       end
    ++ match gcp transports_ with
       | Some c =>
         when (gcp_enabled c && missingString (gcp_projectId c))
           "transports.gcp.projectId is required when GCP transport is enabled"
       | None => []
       end in
  {| valid := bool_decide (length errors_ = 0%nat); errors := errors_ |}.

(** The positive form of each check of [validateConfig]. *)
Definition serviceOk (config : LoggerConfig) : Prop :=
  isNonEmptyString (service config) = true.
Definition limitsOk (config : LoggerConfig) : Prop :=
  forall l, limits config = Some l ->
    (forall z, read (p_stackLimit l) = Some z -> 0 < z)
    /\ (forall z, read (p_responseDataLimit l) = Some z -> 0 < z)
    /\ (forall z, read (p_causeMaxDepth l) = Some z -> 0 < z).
Definition discordOk (t : TransportConfigs) : Prop :=
  forall d, discord t = Some d -> discord_enabled d = true ->
    exists urls, read (discord_webhookUrls d) = Some urls /\ urls <> [].
Definition sentryOk (t : TransportConfigs) : Prop :=
  forall c, sentry t = Some c -> sentry_enabled c = true ->
    isNonEmptyString (sentry_dsn c) = true.
Definition gcpOk (t : TransportConfigs) : Prop :=
  forall c, gcp t = Some c -> gcp_enabled c = true ->
    isNonEmptyString (gcp_projectId c) = true.

(** src/config/defaults.ts *)
Definition DEFAULT_LIMITS : SerializationLimits :=
  {| stackLimit := 1000; responseDataLimit := 500; causeMaxDepth := 3 |}.

(** [DEFAULT_TRANSPORT_CONFIGS.discord]. *)
Definition DEFAULT_DISCORD : DiscordTransportConfig :=
  {| discord_enabled := false; discord_webhookUrls := Value [];
     discord_maxRetries := Value 3; discord_retryDelay := Value 1000;
     discord_maxMessageLength := Value 2000 |}.

(** [{ ...DEFAULT_LIMITS, ...config.limits }]: a limit may come out
    [undefined]. *)
Record MergedLimits : Type := mkMergedLimits {
  m_stackLimit : option Z;
  m_responseDataLimit : option Z;
  m_causeMaxDepth : option Z
}.

Definition mergeLimits (l : option PartialLimits) : MergedLimits :=
  match l with
  | Some l =>
    {| m_stackLimit := spread (stackLimit DEFAULT_LIMITS) (p_stackLimit l);
       m_responseDataLimit :=
         spread (responseDataLimit DEFAULT_LIMITS) (p_responseDataLimit l);
       m_causeMaxDepth :=
         spread (causeMaxDepth DEFAULT_LIMITS) (p_causeMaxDepth l) |}
  | None =>
    {| m_stackLimit := Some (stackLimit DEFAULT_LIMITS);
       m_responseDataLimit := Some (responseDataLimit DEFAULT_LIMITS);
       m_causeMaxDepth := Some (causeMaxDepth DEFAULT_LIMITS) |}
  end.


(** [mergeTransportConfigs] at the key [discord]:
    [{ ...defaultConfig, ...userConfig }], or the default when the user
    gave nothing; and the options [createTransports] builds the Discord
    transport from when the merged configuration is enabled. *)
Definition mergedDiscordOptions (user : option DiscordTransportConfig)
  : bool * DiscordTransportOptions :=
  match user with
  | Some u =>
    (discord_enabled u,
     {| opt_webhookUrls := spread [] (discord_webhookUrls u);
        opt_maxRetries := spread 3 (discord_maxRetries u);
        opt_retryDelay := spread 1000 (discord_retryDelay u);
        opt_maxMessageLength := spread 2000 (discord_maxMessageLength u) |})
  | None =>
    (discord_enabled DEFAULT_DISCORD,
     {| opt_webhookUrls := read (discord_webhookUrls DEFAULT_DISCORD);
        opt_maxRetries := read (discord_maxRetries DEFAULT_DISCORD);
        opt_retryDelay := read (discord_retryDelay DEFAULT_DISCORD);
        opt_maxMessageLength :=
          read (discord_maxMessageLength DEFAULT_DISCORD) |})
  end.

Definition createDiscordTransport (user : option DiscordTransportConfig)
  : option DiscordWebhookTransport :=
  let '(enabled_, opts) := mergedDiscordOptions user in
  if enabled_ then Some (constructor opts) else None.

Definition newline : string := String (ascii_of_nat 10) EmptyString.

(** What [new Logger(config)] ends in: the exception it throws, or the
    limits and the Discord transport of the logger. *)
Inductive Construction : Type :=
| Thrown (errorMessage : string)
| Constructed (limits_ : MergedLimits)
    (discordTransport : option DiscordWebhookTransport).

Definition Logger (config : LoggerConfig) : Construction :=
  let validation := validateConfig config in
  if negb (valid validation) then
    Thrown ("Invalid logger configuration:" ++ newline
            ++ String.concat newline (errors validation))%string
  else
    Constructed (mergeLimits (limits config))
      (createDiscordTransport
         (discord (default noTransports (transports config)))).

End Config.

(** ** A host to run the code on

    One behaviour of the functions the embedding takes from outside the
    repository ([serialize-error], [String], [JSON.stringify],
    [parseInt], [parseFloat], number printing); the closed examples below
    evaluate the code on it. *)

Module Host.
Import Js Types ErrorSerialization.

Definition toAscii (s : jsString) : string :=
  string_of_list_ascii (map ascii_of_N s).

Definition decimal (z : Z) : jsString :=
  lit (NilZero.string_of_int (Z.to_int z)).

Definition numberToString (n : number) : jsString :=
  match n with NaN => lit "NaN" | Num z => decimal z end.

(** [String(v)]; an object prints as [[object Object]]. *)
Definition String_ (v : JsValue) : jsString :=
  match v with
  | JsUndefined => lit "undefined"
  | JsNull => lit "null"
  | JsBoolean b => if b then lit "true" else lit "false"
  | JsNumber n => numberToString n
  | JsBigInt z => decimal z
  | JsString s => s
  | JsSymbol => lit "Symbol()"
  | JsFunction => lit "function () { }"
  | JsObject _ => lit "[object Object]"
  end.

(** [parseInt(s, 10)] and [parseFloat(s)] on decimal integer literals;
    anything else is read as NaN. *)
Definition parseNumber (s : jsString) : number :=
  match NilZero.int_of_string (toAscii s) with
  | Some i => Num (Z.of_int i)
  | None => NaN
  end.

Definition quote : jsString := [34%N].

(** [JSON.stringify] on values whose strings need no escaping; a BigInt
    makes it throw. *)
Fixpoint JSON_stringify (v : JsValue) : option jsString :=
  match v with
  | JsNull => Some (lit "null")
  | JsBoolean b => Some (if b then lit "true" else lit "false")
  | JsNumber NaN => Some (lit "null")
  | JsNumber (Num z) => Some (decimal z)
  | JsString s => Some (quote ++ s ++ quote)
  | JsBigInt _ => None
  | JsUndefined | JsSymbol | JsFunction => Some (lit "undefined")
  | JsObject props =>
    let fix members (ps : list (jsString * JsValue))
        : option (list jsString) :=
      match ps with
      | [] => Some []
      | (k, x) :: rest =>
        match x with
        | JsUndefined | JsSymbol | JsFunction => members rest
        | _ =>
          match JSON_stringify x, members rest with
          | Some sx, Some ms =>
            Some ((quote ++ k ++ quote ++ lit ":" ++ sx) :: ms)
          | _, _ => None
          end
        end
      end in
    match members props with
    | Some ms => Some (lit "{" ++ join (lit ",") ms ++ lit "}")
    | None => None
    end
  end.

Definition stringProp (key : string) (v : JsValue) : option jsString :=
  match getProp (lit key) v with
  | JsString s => Some s
  | _ => None
  end.

(** [serialize-error] on a plain object without cycles: the properties
    are copied. *)
Definition baseSerializeError (v : JsValue) : SerializedError :=
  {| s_name := stringProp "name" v;
     s_message := stringProp "message" v;
     s_stack := stringProp "stack" v;
     s_code :=
       match getProp (lit "code") v with
       | JsString s => Some (CodeString s)
       | JsNumber n => Some (CodeNumber n)
       | _ => None
       end;
     s_cause :=
       match v with JsObject props => assoc (lit "cause") props | _ => None end;
     s_response :=
       match v with
       | JsObject props => assoc (lit "response") props
       | _ => None
       end |}.

(** An error object [{ message, cause? }]. *)
Definition errorWith (msg : string) (cause_ : option JsValue) : JsValue :=
  JsObject ((lit "message", JsString (lit msg))
            :: match cause_ with
               | Some c => [(lit "cause", c)]
               | None => []
               end).

(** A chain of [n] causes below an error. *)
Fixpoint errorChain (n : nat) : JsValue :=
  match n with
  | O => errorWith "root cause" None
  | S k => errorWith "failed" (Some (errorChain k))
  end.

End Host.

(** ** Inputs of the closed examples *)

Module Scenarios.
Import Js Types ErrorSerialization RateLimiter Transport.

(** A transport and an entry: the header of the entry, 29 code units, is
    longer than the 10 allowed for a message. *)
Definition tightTransport : DiscordWebhookTransport :=
  {| webhookUrls := []; maxRetries := 3; retryDelay := 1000;
     maxMessageLength := 10 |}.

Definition paymentEntry : LogEntry :=
  {| timestamp := lit "2024-01-01T00:00:00.000Z"; level := L_error;
     origin := lit "payments"; identifier := lit "charge";
     sendDiscordWebhook := JsBoolean true; message := lit "card declined";
     service := lit "shop"; sessionID := None; errorID := None;
     error := None; comment := None; meta := None |}.

(** A configuration with the console and the Discord transport enabled,
    one limit given and one retry setting written as [undefined]. *)
Definition shopConfig : Config.LoggerConfig :=
  {| Config.service := JsString (lit "shop");
     Config.transports :=
       Some {| Config.console := Some {| Config.enabled := true |};
               Config.file := None; Config.errorFile := None;
               Config.discord :=
                 Some {| Config.discord_enabled := true;
                         Config.discord_webhookUrls :=
                           Config.Value
                             [lit "https://discord.test/api/webhooks/A"];
                         Config.discord_maxRetries := Config.Undefined;
                         Config.discord_retryDelay := Config.Value 250;
                         Config.discord_maxMessageLength := Config.Absent |};
               Config.sentry := None; Config.gcp := None |};
     Config.limits :=
       Some {| Config.p_stackLimit := Config.Value 2000;
               Config.p_responseDataLimit := Config.Absent;
               Config.p_causeMaxDepth := Config.Absent |};
     Config.level := None |}.

(** A heap where object 1 holds object 2 twice and, under a third key,
    itself. *)
Definition sharedHeap (l : ObjectDepth.loc) : ObjectDepth.HeapObject :=
  match l with
  | 1%positive =>
    ObjectDepth.Object
      [(lit "a", ObjectDepth.Ref 2%positive);
       (lit "b", ObjectDepth.Ref 2%positive);
       (lit "self", ObjectDepth.Ref 1%positive)]
  | 3%positive =>
    ObjectDepth.Array [ObjectDepth.Ref 2%positive; ObjectDepth.Ref 2%positive]
  | _ => ObjectDepth.Array [ObjectDepth.Prim (ObjectDepth.PNumber (Num 7))]
  end.

(** Eight bytes of entropy. *)
Definition sampleBytes : list Byte.byte :=
  [Byte.x00; Byte.x01; Byte.x7f; Byte.x80; Byte.xa3; Byte.xf2; Byte.xd8;
   Byte.xff].

(** Two webhook URLs. *)
Definition hookA : jsString := lit "https://discord.test/api/webhooks/A".
Definition hookB : jsString := lit "https://discord.test/api/webhooks/B".

(** The headers of a success that used up the window: no request left,
    the window ends in one second. *)
Definition exhaustedHeaders : Headers :=
  {[ lit "x-ratelimit-remaining" := lit "0";
     lit "x-ratelimit-reset-after" := lit "1" ]}.

(** An entry whose alert flag is unset. *)
Definition quietEntry : LogEntry :=
  {| timestamp := lit "2024-01-01T00:00:00.000Z"; level := L_info;
     origin := lit "payments"; identifier := lit "charge";
     sendDiscordWebhook := JsUndefined; message := lit "card accepted";
     service := lit "shop"; sessionID := None; errorID := None;
     error := None; comment := None; meta := None |}.

(** A transport built from a URL list alone, and a world in which
    nothing has happened yet. *)
Definition transportFor (urls : list jsString) : DiscordWebhookTransport :=
  constructor {| opt_webhookUrls := Some urls; opt_maxRetries := None;
                 opt_retryDelay := None; opt_maxMessageLength := None |}.

Definition freshWorld : World :=
  {| now := 0; limiter := ∅; trace := []; immediates := []; callbacks := 0 |}.

(** Answers of the network. *)
Definition ok200 : Response :=
  {| r_status := 200; r_headers := ∅; r_data := JsString [] |}.
Definition bad400 : Response :=
  {| r_status := 400; r_headers := ∅; r_data := JsUndefined |}.
Definition down500 : Response :=
  {| r_status := 500; r_headers := ∅; r_data := JsUndefined |}.


(** [hookA] always answers 500, every other endpoint 200. *)
Definition primaryDown (t : list Effect) (webhookUrl content : jsString)
  : PostOutcome :=
  if bool_decide (webhookUrl = hookA)
  then RejectedAxios (Some down500)
  else Fulfilled ok200.

(** Every endpoint always answers 400. *)
Definition alwaysBadRequest (t : list Effect) (webhookUrl content : jsString)
  : PostOutcome :=
  RejectedAxios (Some bad400).

End Scenarios.


(** * Properties *)

(** ** Truncation *)

Module TruncationFacts.
Import Js Types Truncation Transport.

Lemma take_clamp {A} (n : nat) (l : list A) :
  take (Nat.min n (length l)) l = take n l.
Proof.
  destruct (Nat.le_gt_cases n (length l)) as [Hle | Hgt].
  - by rewrite Nat.min_l.
  - rewrite Nat.min_r by lia. rewrite !take_ge; [done | lia | lia].
Qed.

Lemma substring_from_0 (s : jsString) (e : Z) :
  substring s 0 e = take (Z.to_nat e) s.
Proof.
  unfold substring, clampIndex. simpl.
  rewrite Nat.sub_0_r. apply take_clamp.
Qed.

Lemma length_ellipsis : length ellipsis = 3%nat.
Proof. reflexivity. Qed.

(** Where [truncateString] leaves its argument alone. *)
Lemma truncateString_short (str : jsString) (limit : Z) :
  Z.of_nat (length str) <= limit -> truncateString str limit = str.
Proof.
  intros H. unfold truncateString.
  replace (Z.of_nat (length str) <=? limit) with true
    by (symmetry; apply Z.leb_le; lia).
  by rewrite orb_true_r.
Qed.

(** Where it cuts: the head of the string, then the marker. *)
Lemma truncateString_long (str : jsString) (limit : Z) :
  str <> [] -> limit < Z.of_nat (length str) ->
  truncateString str limit = take (Z.to_nat (limit - 3)) str ++ ellipsis.
Proof.
  intros Hne H. unfold truncateString.
  replace (Z.of_nat (length str) <=? limit) with false
    by (symmetry; apply Z.leb_gt; lia).
  destruct str as [| c str']; [done |]. simpl negb. simpl orb. cbv iota.
  by rewrite substring_from_0.
Qed.

Lemma truncateString_length (str : jsString) (limit : Z) :
  3 <= limit -> limit < Z.of_nat (length str) ->
  Z.of_nat (length (truncateString str limit)) = limit.
Proof.
  intros H3 H.
  rewrite truncateString_long; [| by destruct str; simpl in *; [lia |] | done].
  rewrite length_app, length_take, length_ellipsis. lia.
Qed.

Lemma truncateString_idempotent (str : jsString) (limit : Z) :
  truncateString (truncateString str limit) limit = truncateString str limit.
Proof.
  destruct (decide (str = [])) as [-> | Hne]; [done |].
  destruct (Z_le_gt_dec (Z.of_nat (length str)) limit) as [Hle | Hgt].
  - by rewrite !(truncateString_short str limit Hle).
  - rewrite (truncateString_long str limit) by (done || lia).
    destruct (Z_le_gt_dec 3 limit) as [H3 | H3].
    + apply truncateString_short.
      rewrite length_app, length_take, length_ellipsis. lia.
    + replace (Z.to_nat (limit - 3)) with 0%nat by lia.
      rewrite take_0. simpl app.
      rewrite truncateString_long; [| done | rewrite length_ellipsis; lia].
      replace (Z.to_nat (limit - 3)) with 0%nat by lia. by rewrite take_0.
Qed.

Lemma join_cons2 (sep p q : jsString) (rest : list jsString) :
  join sep (p :: q :: rest) = p ++ sep ++ join sep (q :: rest).
Proof. reflexivity. Qed.

Section Format.
Variable numberToString : number -> jsString.
Variable this : DiscordWebhookTransport.

Lemma formatParts_header (info : LogEntry) :
  exists rest,
    join (nl ++ nl) (formatParts numberToString info)
    = formatHeader info ++ rest.
Proof.
  unfold formatParts. simpl app. rewrite join_cons2. eauto.
Qed.

Lemma formatMessage_length (info : LogEntry) :
  3 <= maxMessageLength this ->
  Z.of_nat (length (formatMessage numberToString this info))
  <= maxMessageLength this.
Proof.
  intros H3. unfold formatMessage.
  set (full := join _ _).
  destruct (Z_le_gt_dec (Z.of_nat (length full)) (maxMessageLength this))
    as [Hle | Hgt].
  - by rewrite truncateString_short.
  - rewrite truncateString_length; lia.
Qed.

Lemma formatMessage_header (info : LogEntry) :
  Z.of_nat (length (formatHeader info)) <= maxMessageLength this - 3 ->
  formatHeader info `prefix_of` formatMessage numberToString this info.
Proof.
  intros Hh. unfold formatMessage.
  destruct (formatParts_header info) as [rest Hrest].
  set (full := join _ _) in *.
  destruct (Z_le_gt_dec (Z.of_nat (length full)) (maxMessageLength this))
    as [Hle | Hgt].
  - rewrite truncateString_short by done. rewrite Hrest. by eexists.
  - rewrite truncateString_long; [| | lia].
    + rewrite Hrest, take_app_ge by lia.
      rewrite <- app_assoc. by eexists.
    + intros E. rewrite E in Hgt. simpl in Hgt. lia.
Qed.
End Format.

(** C3, as the code has it.  For a limit of at least 3 and a string
    strictly longer than the limit, [truncateString] returns exactly
    [limit] code units: the first [limit - 3] of the string followed by
    the marker ["..."]; truncating the result again at the same limit
    changes nothing; and [formatMessage] returns a message of at most
    [maxMessageLength] code units of which the header is a prefix as long
    as the header has at most [maxMessageLength - 3] code units. *)
Theorem truncateString_cut (str : jsString) (limit : Z)
    (Hmarker : 3 <= limit) (Hlong : limit < Z.of_nat (length str)) :
  Z.of_nat (length (truncateString str limit)) = limit
  /\ truncateString str limit = take (Z.to_nat (limit - 3)) str ++ lit "..."
  /\ truncateString (truncateString str limit) limit = truncateString str limit
  /\ (forall numberToString this info,
        maxMessageLength this = limit ->
        Z.of_nat (length (formatMessage numberToString this info)) <= limit
        /\ (Z.of_nat (length (formatHeader info)) <= limit - 3 ->
            formatHeader info
              `prefix_of` formatMessage numberToString this info)).
Proof.
  split; [by apply truncateString_length |].
  split.
  { apply truncateString_long; [| done].
    intros ->. simpl in Hlong. lia. }
  split; [apply truncateString_idempotent |].
  intros nts this info <-. split.
  - by apply formatMessage_length.
  - apply formatMessage_header.
Qed.

Lemma truncateString_cut_witness :
  3 <= 5 /\ 5 < Z.of_nat (length (lit "abcdefghij"))
  /\ truncateString (lit "abcdefghij") 5 = lit "ab...".
Proof.
  split; [lia |]. split; [reflexivity |].
  destruct (truncateString_cut (lit "abcdefghij") 5) as (_ & -> & _).
  - lia.
  - reflexivity.
  - reflexivity.
Defined.

(** C3 as stated fails below the length of the marker, and the header
    does not survive a limit shorter than the header: at limit 2 the
    result has 3 code units, and a message limit of 10 cuts a header of
    29 code units. *)
Lemma truncateString_small_limit :
  2 < Z.of_nat (length (lit "abcdef"))
  /\ truncateString (lit "abcdef") 2 = lit "..."
  /\ Z.of_nat (length (truncateString (lit "abcdef") 2)) <> 2
  /\ formatMessage Host.numberToString Scenarios.tightTransport Scenarios.paymentEntry
     = lit "**[ERRO..."
  /\ ~ (formatHeader Scenarios.paymentEntry
          `prefix_of` formatMessage Host.numberToString Scenarios.tightTransport
                        Scenarios.paymentEntry).
Proof.
  split; [reflexivity |]. split; [reflexivity |]. split; [by vm_compute |].
  split; [reflexivity |].
  intros Hp. apply prefix_length in Hp. vm_compute in Hp. lia.
Qed.

End TruncationFacts.

(** ** Error serialization *)

Module SerializationFacts.
Import Js Types Truncation Validation ConfigValidator ErrorSerialization.


Section WithLibrary.
Variable baseSerializeError : JsValue -> SerializedError.
Variable String_ : JsValue -> jsString.
Variable JSON_stringify : JsValue -> option jsString.

Local Abbreviation serializeCause := (serializeCause baseSerializeError String_).
Local Abbreviation serializeError :=
  (serializeError baseSerializeError String_ JSON_stringify).

(** The body of [serializeCause], as one equation. *)
Lemma serializeCause_unfold cause_ maxDepth currentDepth limits :
  serializeCause cause_ maxDepth currentDepth limits =
  if decide (maxDepth < currentDepth) then depthSentinel
  else if negb (isErrorLike cause_) then
    {| name := Some (lit "UnknownCause");
       message := String_ cause_;
       stack := None; code := None; cause := None; response := None |}
  else
    let serialized := baseSerializeError cause_ in
    {| name := s_name serialized;
       message := orString (s_message serialized) (lit "Unknown cause");
       stack := truncatedStack serialized (stackLimit limits);
       code := s_code serialized;
       cause :=
         match presentCause serialized with
         | Some c =>
           Some (serializeCause c maxDepth (currentDepth + 1) limits)
         | None => None
         end;
       response := None |}.
Proof.
  simp serializeCause.
  destruct (Z_lt_dec maxDepth currentDepth), (decide (maxDepth < currentDepth));
    try lia; reflexivity.
Qed.






(** [serializeError(new Error('boom'))]. *)
Example serializeError_boom :
  ErrorSerialization.serializeError Host.baseSerializeError Host.String_
    Host.JSON_stringify
    (JsObject [(lit "name", JsString (lit "Error"));
               (lit "message", JsString (lit "boom"));
               (lit "stack", JsString (lit "Error: boom"))])
    DEFAULT_LIMITS
  = {| name := Some (lit "Error"); message := lit "boom";
       stack := Some (lit "Error: boom"); code := None; cause := None;
       response := None |}.
Proof. reflexivity. Qed.

End WithLibrary.




End SerializationFacts.

(** ** The rate limiter *)

Module RateLimiterFacts.
Import Js RateLimiter.

Lemma isRateLimited_unknown_state (now : Z) (webhookUrl : jsString)
    (st : LimiterState) :
  st !! webhookUrl = None -> isRateLimited now webhookUrl st = (false, st).
Proof. intros H. unfold isRateLimited. by rewrite H. Qed.

Lemma isRateLimited_penalty_over (now : Z) (webhookUrl : jsString)
    (st : LimiterState) (state : RateLimitState) :
  st !! webhookUrl = Some state ->
  isLimited state = true ->
  nge (Num now) (resetAt state) = true ->
  isRateLimited now webhookUrl st
  = (false, <[webhookUrl := expired state]> st).
Proof.
  intros Hst Hl Ht. unfold isRateLimited. rewrite Hst, Hl, Ht. reflexivity.
Qed.

Lemma isRateLimited_after_expiry (later : Z) (webhookUrl : jsString)
    (st : LimiterState) (state : RateLimitState) :
  fst (isRateLimited later webhookUrl (<[webhookUrl := expired state]> st))
  = false.
Proof.
  unfold isRateLimited. rewrite lookup_insert_eq. reflexivity.
Qed.

(** C2, as the code has it.  For an endpoint whose stored state carries
    the limited flag (a penalty), [isRateLimited] returns false as soon as
    the clock is at or past the stored [resetAt], with no [recordSuccess]
    in between: the call clears the flag and puts [remaining] back to 30,
    the states of the other endpoints are untouched, and every later call
    reports the endpoint as not limited.  In particular a penalty
    recorded by [recordRateLimit] is over once its delay has passed. *)
Theorem isRateLimited_lazy_expiry (now : Z) (webhookUrl : jsString)
    (st : LimiterState) (state : RateLimitState)
    (Hstate : st !! webhookUrl = Some state)
    (Hpenalty : isLimited state = true)
    (Hpast : nge (Num now) (resetAt state) = true) :
  fst (isRateLimited now webhookUrl st) = false
  /\ snd (isRateLimited now webhookUrl st) !! webhookUrl
     = Some {| remaining := Num 30; resetAt := resetAt state;
               isLimited := false; retryAfter := retryAfter state |}
  /\ (forall other, other <> webhookUrl ->
        snd (isRateLimited now webhookUrl st) !! other = st !! other)
  /\ (forall later,
        fst (isRateLimited later webhookUrl
               (snd (isRateLimited now webhookUrl st))) = false)
  /\ (forall recordedAt delay st0,
        recordedAt + delay * 1000 <= now ->
        fst (isRateLimited now webhookUrl
               (recordRateLimit recordedAt webhookUrl (Num delay) st0))
        = false).
Proof.
  rewrite (isRateLimited_penalty_over now webhookUrl st state) by done.
  simpl. split; [done |]. split; [by rewrite lookup_insert_eq |].
  split; [by intros other Hne; rewrite lookup_insert_ne |].
  split; [intros later; apply isRateLimited_after_expiry |].
  intros t0 delay st0 Hle. unfold recordRateLimit.
  erewrite isRateLimited_penalty_over;
    [done | apply lookup_insert_eq | done |].
  simpl. apply Z.leb_le. lia.
Qed.

Lemma isRateLimited_lazy_expiry_witness :
  fst (isRateLimited 1000 Scenarios.hookA
         (recordRateLimit 0 Scenarios.hookA (Num 1) ∅)) = false
  /\ snd (isRateLimited 1000 Scenarios.hookA
            (recordRateLimit 0 Scenarios.hookA (Num 1) ∅))
       !! Scenarios.hookA
     = Some {| remaining := Num 30; resetAt := Num 1000;
               isLimited := false; retryAfter := Num 1 |}.
Proof.
  destruct (isRateLimited_lazy_expiry 1000 Scenarios.hookA
              (recordRateLimit 0 Scenarios.hookA (Num 1) ∅)
              {| remaining := Num 0; resetAt := Num 1000;
                 isLimited := true; retryAfter := Num 1 |})
    as (Hfalse & Hstate & _).
  - apply lookup_insert_eq.
  - reflexivity.
  - reflexivity.
  - split; [exact Hfalse | exact Hstate].
Defined.

(** C2 as stated fails for an endpoint that used up its window without a
    penalty: after a success whose headers say that no request remains,
    the flag is clear, the expiry branch is not taken, and [isRateLimited]
    still answers true four seconds after [resetAt]. *)
Lemma isRateLimited_exhausted_window :
  recordSuccess Host.parseNumber Host.parseNumber 0 Scenarios.hookA
    Scenarios.exhaustedHeaders ∅ !! Scenarios.hookA
  = Some {| remaining := Num 0; resetAt := Num 1000; isLimited := false;
            retryAfter := Num 0 |}
  /\ nge (Num 5000) (Num 1000) = true
  /\ fst (isRateLimited 5000 Scenarios.hookA
            (recordSuccess Host.parseNumber Host.parseNumber 0
               Scenarios.hookA Scenarios.exhaustedHeaders ∅))
     = true.
Proof.
  assert (Hst :
    recordSuccess Host.parseNumber Host.parseNumber 0 Scenarios.hookA
      Scenarios.exhaustedHeaders ∅ !! Scenarios.hookA
    = Some {| remaining := Num 0; resetAt := Num 1000; isLimited := false;
              retryAfter := Num 0 |}).
  { unfold recordSuccess. rewrite lookup_insert_eq. reflexivity. }
  split; [exact Hst |]. split; [reflexivity |].
  unfold isRateLimited. rewrite Hst. reflexivity.
Qed.

End RateLimiterFacts.

(** ** The webhook transport *)

Module TransportFacts.
Import Js Types Truncation RateLimiter Transport.

Lemma setLimiter_same (w : World) : setLimiter (limiter w) w = w.
Proof. by destruct w. Qed.

Lemma posts_app (t1 t2 : list Effect) : posts (t1 ++ t2) = posts t1 ++ posts t2.
Proof. apply List.filter_app. Qed.

Section WithHost.
Variable parseInt10 : jsString -> number.
Variable parseFloat : jsString -> number.
Variable numberToString : number -> jsString.
Variable axios_post : list Effect -> jsString -> jsString -> PostOutcome.
Variable this : DiscordWebhookTransport.

Local Abbreviation attempts :=
  (attempts parseInt10 parseFloat axios_post this).
Local Abbreviation sendToWebhook :=
  (sendToWebhook parseInt10 parseFloat axios_post this).
Local Abbreviation tryWebhooks :=
  (tryWebhooks parseInt10 parseFloat axios_post this).
Local Abbreviation sendToDiscord :=
  (sendToDiscord parseInt10 parseFloat numberToString axios_post this).
Local Abbreviation log :=
  (log parseInt10 parseFloat numberToString axios_post this).
Local Abbreviation formatMessage := (formatMessage numberToString this).
Local Abbreviation getRetryAfter := (getRetryAfter parseFloat).

(** *** The rate-limit check before an attempt *)

Lemma awaitRateLimit_trace (webhookUrl : jsString) (w : World) :
  trace (awaitRateLimit webhookUrl w) = trace w
  \/ exists ms, trace (awaitRateLimit webhookUrl w) = trace w ++ [Sleep ms].
Proof.
  unfold awaitRateLimit.
  destruct (isRateLimited _ _ _) as [limited st].
  destruct limited; [| by left].
  destruct (ngt _ _); [right; by eexists | by left].
Qed.

Lemma awaitRateLimit_posts (webhookUrl : jsString) (w : World) :
  posts (trace (awaitRateLimit webhookUrl w)) = posts (trace w).
Proof.
  destruct (awaitRateLimit_trace webhookUrl w) as [-> | [ms ->]]; [done |].
  rewrite posts_app. simpl. by rewrite app_nil_r.
Qed.

Lemma awaitRateLimit_callbacks (webhookUrl : jsString) (w : World) :
  callbacks (awaitRateLimit webhookUrl w) = callbacks w
  /\ immediates (awaitRateLimit webhookUrl w) = immediates w.
Proof.
  unfold awaitRateLimit.
  destruct (isRateLimited _ _ _) as [limited st].
  destruct limited; [| done]. by destruct (ngt _ _).
Qed.

(** An endpoint the limiter knows nothing about is attempted at once. *)
Lemma awaitRateLimit_unknown (webhookUrl : jsString) (w : World) :
  limiter w !! webhookUrl = None -> awaitRateLimit webhookUrl w = w.
Proof.
  intros H. unfold awaitRateLimit.
  rewrite RateLimiterFacts.isRateLimited_unknown_state by done. apply setLimiter_same.
Qed.

(** *** One iteration of the retry loop, by the answer of the network *)

Lemma attempts_fulfilled budget attempt webhookUrl content w response :
  axios_post (trace (awaitRateLimit webhookUrl w)) webhookUrl content
  = Fulfilled response ->
  attempts (S budget) attempt webhookUrl content w
  = (let w1 := awaitRateLimit webhookUrl w in
     setLimiter
       (recordSuccess parseInt10 parseFloat (now w1) webhookUrl
          (r_headers response) (limiter w1))
       (issue (Post webhookUrl content) w1),
     true).
Proof. intros H. simpl. by rewrite H. Qed.


Lemma attempts_client_error budget attempt webhookUrl content w r :
  axios_post (trace (awaitRateLimit webhookUrl w)) webhookUrl content
  = RejectedAxios (Some r) ->
  400 <= r_status r < 500 ->
  r_status r <> 429 ->
  attempts (S budget) attempt webhookUrl content w
  = (issue (Post webhookUrl content) (awaitRateLimit webhookUrl w), false).
Proof.
  intros H [Hlo Hhi] Hne. simpl. rewrite H. simpl.
  rewrite bool_decide_eq_false_2 by congruence.
  apply Z.leb_le in Hlo. apply Z.ltb_lt in Hhi. by rewrite Hlo, Hhi.
Qed.

Lemma attempts_server_error budget attempt webhookUrl content w r :
  axios_post (trace (awaitRateLimit webhookUrl w)) webhookUrl content
  = RejectedAxios (Some r) ->
  500 <= r_status r ->
  attempts (S budget) attempt webhookUrl content w
  = attempts budget (attempt + 1) webhookUrl content
      (sleep (Num (retryDelay this * 2 ^ attempt))
         (issue (Post webhookUrl content) (awaitRateLimit webhookUrl w))).
Proof.
  intros H Hhi. simpl. rewrite H. simpl.
  rewrite bool_decide_eq_false_2 by (intros [= E]; lia).
  replace (r_status r <? 500) with false by (symmetry; apply Z.ltb_ge; lia).
  by rewrite andb_false_r.
Qed.

(** The loop and the failover leave the callback of [log] and the
    [setImmediate] queue alone. *)
Lemma attempts_callbacks budget :
  forall attempt webhookUrl content w,
    callbacks (fst (attempts budget attempt webhookUrl content w))
    = callbacks w
    /\ immediates (fst (attempts budget attempt webhookUrl content w))
       = immediates w.
Proof.
  induction budget as [| budget IH]; intros k u c w; [done |].
  destruct (awaitRateLimit_callbacks u w) as [Hc Hi].
  simpl.
  destruct (axios_post _ u c) as [resp | [r |] |]; simpl;
    repeat case_bool_decide;
    repeat match goal with
           | |- context [(?a <=? ?b) && (?c <? ?d)] =>
             destruct ((a <=? b) && (c <? d))
           end;
    simpl; try done;
    match goal with
    | |- context [Transport.attempts _ _ _ _ budget ?k' ?u' ?c' ?w'] =>
      destruct (IH k' u' c' w') as [-> ->]
    end; done.
Qed.

Lemma tryWebhooks_callbacks urls :
  forall content w,
    callbacks (fst (tryWebhooks urls content w)) = callbacks w
    /\ immediates (fst (tryWebhooks urls content w)) = immediates w.
Proof.
  induction urls as [| u rest IH]; intros c w; [done |].
  simpl. unfold Transport.sendToWebhook.
  pose proof (attempts_callbacks (Z.to_nat (maxRetries this)) 0 u c w) as H.
  destruct (attempts _ 0 u c w) as [w1 ok]. simpl in H.
  destruct ok; simpl; [done |].
  destruct (IH c w1) as [-> ->]. done.
Qed.

(** The promise of [sendToDiscord] is only ever rejected with the one
    message. *)
Lemma tryWebhooks_rejected urls :
  forall content w err,
    snd (tryWebhooks urls content w) = Rejected err ->
    err = lit "All Discord webhook URLs failed".
Proof.
  induction urls as [| u rest IH]; intros c w err; simpl.
  - congruence.
  - destruct (sendToWebhook u c w) as [w1 ok]. destruct ok; simpl.
    + discriminate.
    + apply IH.
Qed.




(** *** The delay of a 429 *)




(** *** A 429 and the retry *)


(** *** Failover *)

(** The primary answers 500 to everything: the loop uses its budget up,
    one request and one backoff per iteration. *)
Lemma attempts_primary_down (A : jsString)
    (HA : forall t c, exists r,
        axios_post t A c = RejectedAxios (Some r) /\ r_status r = 500)
    (content : jsString) (budget : nat) :
  forall attempt w,
    snd (attempts budget attempt A content w) = false
    /\ posts (trace (fst (attempts budget attempt A content w)))
       = posts (trace w) ++ replicate budget (Post A content)
    /\ (limiter w !! A = None ->
        trace (fst (attempts budget attempt A content w))
        = trace w ++ backoffRun this A content budget attempt
        /\ limiter (fst (attempts budget attempt A content w)) = limiter w).
Proof.
  induction budget as [| budget IH]; intros k w.
  - simpl. by rewrite !app_nil_r.
  - destruct (HA (trace (awaitRateLimit A w)) content) as (r & Hr & Hs).
    rewrite (attempts_server_error budget k A content w r) by (done || lia).
    destruct (IH (k + 1)
                (sleep (Num (retryDelay this * 2 ^ k))
                   (issue (Post A content) (awaitRateLimit A w))))
      as (Hfail & Hposts & Hfresh).
    split; [done |]. split.
    + rewrite Hposts. simpl. rewrite !posts_app, awaitRateLimit_posts. simpl.
      by rewrite app_nil_r, <- app_assoc.
    + intros Hnone. rewrite (awaitRateLimit_unknown A w Hnone) in Hfresh |- *.
      destruct (Hfresh Hnone) as [-> ->]. simpl.
      by rewrite <- !app_assoc.
Qed.

(** C5.  With the endpoint list [[A; B]], [A] answering 500 to every
    request and [B] answering every request with a success, and a budget
    of at least one attempt, the dispatch is fulfilled; its requests are,
    in this order, [maxRetries] requests to [A] and then one to [B]; and
    when the rate limiter holds nothing about the two endpoints the whole
    run is: request to [A] and a backoff of [retryDelay * 2^attempt],
    [maxRetries] times over, then the request to [B]. *)
Theorem failover_to_backup (info : LogEntry) (A B : jsString) (w : World)
    (Hbudget : 1 <= maxRetries this)
    (Hurls : webhookUrls this = [A; B])
    (HA : forall t c, exists r,
        axios_post t A c = RejectedAxios (Some r) /\ r_status r = 500)
    (HB : forall t c, exists r,
        axios_post t B c = Fulfilled r /\ r_status r = 200) :
  let c := formatMessage info in
  let n := Z.to_nat (maxRetries this) in
  snd (sendToDiscord info w) = Resolved
  /\ posts (trace (fst (sendToDiscord info w)))
     = posts (trace w) ++ replicate n (Post A c) ++ [Post B c]
  /\ (limiter w !! A = None -> limiter w !! B = None ->
      trace (fst (sendToDiscord info w))
      = trace w ++ backoffRun this A c n 0 ++ [Post B c]).
Proof.
  intros c n. unfold Transport.sendToDiscord. rewrite Hurls. fold c.
  unfold Transport.tryWebhooks, Transport.sendToWebhook. fold n.
  destruct (attempts_primary_down A HA c n 0 w) as (Hfail & Hposts & Hfresh).
  destruct (attempts n 0 A c w) as [wA okA]. simpl in Hfail, Hposts, Hfresh.
  subst okA.
  destruct n as [| n'] eqn:En; [lia |].
  destruct (HB (trace (awaitRateLimit B wA)) c) as (r & Hr & _).
  rewrite (attempts_fulfilled n' 0 B c wA r Hr). cbv zeta. simpl fst. simpl snd.
  split; [done |]. split.
  - simpl trace. rewrite posts_app, awaitRateLimit_posts, Hposts. simpl.
    by rewrite <- app_assoc.
  - intros HnoneA HnoneB. destruct (Hfresh HnoneA) as [Ht Hl].
    rewrite awaitRateLimit_unknown by congruence.
    simpl trace. rewrite Ht. by rewrite <- app_assoc.
Qed.

(** *** Client errors *)

(** C6.  When the answer to an attempt is a 4xx other than 429,
    [sendToWebhook] gives the endpoint up at once: it returns false after
    that one request, with no sleep after it and no change to the rate
    limiter, and the failover loop goes on with the next endpoint.  With
    that endpoint alone in the list the dispatch is rejected after exactly
    one request.  (The retry budget allows a first attempt:
    [1 <= maxRetries].) *)
Theorem client_error_aborts (webhookUrl content : jsString)
    (rest : list jsString) (w : World) (r : Response)
    (Hbudget : 1 <= maxRetries this)
    (Hanswer :
       axios_post (trace (awaitRateLimit webhookUrl w)) webhookUrl content
       = RejectedAxios (Some r))
    (Hclient : 400 <= r_status r < 500)
    (Hnot429 : r_status r <> 429) :
  let w1 := issue (Post webhookUrl content) (awaitRateLimit webhookUrl w) in
  sendToWebhook webhookUrl content w = (w1, false)
  /\ trace w1 = trace (awaitRateLimit webhookUrl w) ++ [Post webhookUrl content]
  /\ posts (trace w1) = posts (trace w) ++ [Post webhookUrl content]
  /\ limiter w1 = limiter (awaitRateLimit webhookUrl w)
  /\ now w1 = now (awaitRateLimit webhookUrl w)
  /\ tryWebhooks (webhookUrl :: rest) content w = tryWebhooks rest content w1
  /\ (forall info,
        webhookUrls this = [webhookUrl] ->
        formatMessage info = content ->
        sendToDiscord info w
        = (w1, Rejected (lit "All Discord webhook URLs failed"))).
Proof.
  intros w1.
  assert (Hsend : sendToWebhook webhookUrl content w = (w1, false)).
  { unfold Transport.sendToWebhook.
    destruct (Z.to_nat (maxRetries this)) as [| budget] eqn:E; [lia |].
    by apply attempts_client_error with (r := r). }
  split; [done |]. split; [done |].
  split.
  { subst w1. simpl. rewrite posts_app, awaitRateLimit_posts. done. }
  split; [done |]. split; [done |].
  split.
  { simpl. by rewrite Hsend. }
  intros info Hurls Hmsg. unfold Transport.sendToDiscord.
  rewrite Hurls, Hmsg. simpl. by rewrite Hsend.
Qed.

(** *** What [log] does to its caller *)

(** C7.  [log] always completes normally and invokes its callback
    exactly once.  When the dispatch it started is rejected (every
    endpoint of the list failed) the rejection carries the message
    ['All Discord webhook URLs failed'] and the one thing [log] adds is
    the ['error'] event of the transport; when the dispatch is fulfilled
    it adds nothing. *)
Theorem log_contains_failure (info : LogEntry) (w : World) :
  snd (log info w) = Normal
  /\ callbacks (fst (log info w)) = S (callbacks w)
  /\ (truthy (sendDiscordWebhook info) = true ->
      forall w1 err,
        sendToDiscord info (setImmediate (Logged info) w) = (w1, Rejected err) ->
        err = lit "All Discord webhook URLs failed"
        /\ fst (log info w) = callback (issue (Emit allFailed) w1))
  /\ (truthy (sendDiscordWebhook info) = true ->
      forall w1,
        sendToDiscord info (setImmediate (Logged info) w) = (w1, Resolved) ->
        fst (log info w) = callback w1).
Proof.
  unfold Transport.log.
  destruct (truthy (sendDiscordWebhook info)) eqn:Hflag; simpl.
  - pose proof (tryWebhooks_callbacks (webhookUrls this) (formatMessage info)
                  (setImmediate (Logged info) w)) as [Hc _].
    pose proof (tryWebhooks_rejected (webhookUrls this) (formatMessage info)
                  (setImmediate (Logged info) w)) as Hrej.
    unfold Transport.sendToDiscord.
    destruct (tryWebhooks _ _ _) as [w1 settled]. simpl in Hc, Hrej.
    split; [done |].
    split; [destruct settled; simpl; by rewrite Hc |].
    split.
    + intros _ w1' err [= <- ->]. by rewrite (Hrej err eq_refl).
    + by intros _ w1' [= <- ->].
  - repeat split; done.
Qed.

(** *** Entries that are not flagged *)

(** C9, as the code has it.  For an entry whose alert flag is unset or
    falsy, [log] issues no request, does not sleep, emits no ['error']
    event and leaves the rate limiter and the clock as they were; what it
    does is queue the ['logged'] notification with [setImmediate] and
    invoke the callback once. *)
Theorem log_unflagged (info : LogEntry) (w : World)
    (Hflag : truthy (sendDiscordWebhook info) = false) :
  log info w = (callback (setImmediate (Logged info) w), Normal)
  /\ trace (fst (log info w)) = trace w
  /\ posts (trace (fst (log info w))) = posts (trace w)
  /\ limiter (fst (log info w)) = limiter w
  /\ now (fst (log info w)) = now w
  /\ immediates (fst (log info w)) = immediates w ++ [Logged info]
  /\ callbacks (fst (log info w)) = S (callbacks w).
Proof.
  unfold Transport.log. rewrite Hflag. simpl. repeat split.
Qed.

(** *** An empty endpoint list *)

(** C10.  A transport constructed with an empty list of webhook URLs
    (or none) answers a flagged entry without any request and without
    sleeping: the dispatch is rejected at once, the transport emits the
    ['error'] event whose message ends in
    ['All Discord webhook URLs failed'], and [log] completes normally
    after invoking its callback. *)
Theorem log_without_endpoints (opts : DiscordTransportOptions)
    (info : LogEntry) (w : World)
    (Hempty : webhookUrls (constructor opts) = [])
    (Hflag : truthy (sendDiscordWebhook info) = true) :
  Transport.log parseInt10 parseFloat numberToString axios_post
    (constructor opts) info w
  = (callback (issue (Emit allFailed) (setImmediate (Logged info) w)), Normal)
  /\ trace (fst (Transport.log parseInt10 parseFloat numberToString
                   axios_post (constructor opts) info w))
     = trace w ++ [Emit allFailed]
  /\ posts (trace (fst (Transport.log parseInt10 parseFloat numberToString
                          axios_post (constructor opts) info w)))
     = posts (trace w).
Proof.
  unfold Transport.log, Transport.sendToDiscord.
  rewrite Hflag, Hempty. simpl. split; [done |]. split; [done |].
  rewrite posts_app. simpl. by rewrite app_nil_r.
Qed.

End WithHost.

(** *** The scenarios, run *)


Lemma failover_to_backup_witness :
  let this := Scenarios.transportFor [Scenarios.hookA; Scenarios.hookB] in
  let c := formatMessage Host.numberToString this Scenarios.paymentEntry in
  let run :=
    sendToDiscord Host.parseNumber Host.parseNumber Host.numberToString
      Scenarios.primaryDown this Scenarios.paymentEntry Scenarios.freshWorld in
  1 <= maxRetries this
  /\ snd run = Resolved
  /\ trace (fst run)
     = [Post Scenarios.hookA c; Sleep (Num 1000);
        Post Scenarios.hookA c; Sleep (Num 2000);
        Post Scenarios.hookA c; Sleep (Num 4000);
        Post Scenarios.hookB c].
Proof.
  intros this c run.
  assert (Hbudget : 1 <= maxRetries this) by (simpl; lia).
  destruct (failover_to_backup Host.parseNumber Host.parseNumber
              Host.numberToString Scenarios.primaryDown this
              Scenarios.paymentEntry Scenarios.hookA Scenarios.hookB
              Scenarios.freshWorld Hbudget)
    as (Hok & _ & Htrace).
  - reflexivity.
  - intros t c'. exists Scenarios.down500. split; reflexivity.
  - intros t c'. exists Scenarios.ok200. split; reflexivity.
  - split; [exact Hbudget |]. split; [exact Hok |].
    apply Htrace; reflexivity.
Defined.

Lemma client_error_aborts_witness :
  let this := Scenarios.transportFor [Scenarios.hookA] in
  let c := formatMessage Host.numberToString this Scenarios.paymentEntry in
  1 <= maxRetries this
  /\ 400 <= r_status Scenarios.bad400 < 500
  /\ sendToDiscord Host.parseNumber Host.parseNumber Host.numberToString
       Scenarios.alwaysBadRequest this Scenarios.paymentEntry
       Scenarios.freshWorld
     = (issue (Post Scenarios.hookA c) Scenarios.freshWorld,
        Rejected (lit "All Discord webhook URLs failed")).
Proof.
  intros this c.
  assert (Hbudget : 1 <= maxRetries this) by (simpl; lia).
  assert (Hclient : 400 <= r_status Scenarios.bad400 < 500) by (simpl; lia).
  destruct (client_error_aborts Host.parseNumber Host.parseNumber
              Host.numberToString Scenarios.alwaysBadRequest this
              Scenarios.hookA c [] Scenarios.freshWorld Scenarios.bad400
              Hbudget eq_refl Hclient)
    as (_ & _ & _ & _ & _ & _ & Hdispatch).
  - simpl. lia.
  - split; [exact Hbudget |]. split; [exact Hclient |].
    apply (Hdispatch Scenarios.paymentEntry); reflexivity.
Defined.

Lemma log_contains_failure_witness :
  let this := Scenarios.transportFor [Scenarios.hookA] in
  let c := formatMessage Host.numberToString this Scenarios.paymentEntry in
  let run :=
    log Host.parseNumber Host.parseNumber Host.numberToString
      Scenarios.alwaysBadRequest this Scenarios.paymentEntry
      Scenarios.freshWorld in
  truthy (sendDiscordWebhook Scenarios.paymentEntry) = true
  /\ snd run = Normal
  /\ callbacks (fst run) = 1%nat
  /\ trace (fst run) = [Post Scenarios.hookA c; Emit allFailed].
Proof.
  intros this c run.
  destruct (log_contains_failure Host.parseNumber Host.parseNumber
              Host.numberToString Scenarios.alwaysBadRequest this
              Scenarios.paymentEntry Scenarios.freshWorld)
    as (Hnormal & Hcb & Hfail & _).
  split; [reflexivity |]. split; [exact Hnormal |]. split; [exact Hcb |].
  destruct (Hfail eq_refl
              (issue (Post Scenarios.hookA c)
                 (setImmediate (Logged Scenarios.paymentEntry)
                    Scenarios.freshWorld))
              (lit "All Discord webhook URLs failed") eq_refl)
    as [_ Hworld].
  subst run. rewrite Hworld. reflexivity.
Defined.

Lemma log_unflagged_witness :
  let run :=
    log Host.parseNumber Host.parseNumber Host.numberToString
      Scenarios.primaryDown
      (Scenarios.transportFor [Scenarios.hookA; Scenarios.hookB])
      Scenarios.quietEntry Scenarios.freshWorld in
  truthy (sendDiscordWebhook Scenarios.quietEntry) = false
  /\ trace (fst run) = []
  /\ limiter (fst run) = ∅
  /\ immediates (fst run) = [Logged Scenarios.quietEntry]
  /\ callbacks (fst run) = 1%nat.
Proof.
  intros run.
  destruct (log_unflagged Host.parseNumber Host.parseNumber
              Host.numberToString Scenarios.primaryDown
              (Scenarios.transportFor [Scenarios.hookA; Scenarios.hookB])
              Scenarios.quietEntry Scenarios.freshWorld eq_refl)
    as (_ & Htrace & _ & Hlimiter & _ & Himm & Hcb).
  split; [reflexivity |]. split; [exact Htrace |]. split; [exact Hlimiter |].
  split; [exact Himm | exact Hcb].
Defined.

(** C9 as stated fails in one respect: the call is not a no-op apart
    from the callback, for it queues the ['logged'] notification of the
    entry. *)
Lemma log_unflagged_queues_logged :
  truthy (sendDiscordWebhook Scenarios.quietEntry) = false
  /\ fst (log Host.parseNumber Host.parseNumber Host.numberToString
            Scenarios.primaryDown
            (Scenarios.transportFor [Scenarios.hookA; Scenarios.hookB])
            Scenarios.quietEntry Scenarios.freshWorld)
     <> callback Scenarios.freshWorld
  /\ immediates
       (fst (log Host.parseNumber Host.parseNumber Host.numberToString
               Scenarios.primaryDown
               (Scenarios.transportFor [Scenarios.hookA; Scenarios.hookB])
               Scenarios.quietEntry Scenarios.freshWorld))
     = [Logged Scenarios.quietEntry].
Proof.
  split; [reflexivity |]. split; [| reflexivity].
  intros E. apply (f_equal immediates) in E. discriminate E.
Qed.

Lemma log_without_endpoints_witness :
  let opts :=
    {| opt_webhookUrls := Some []; opt_maxRetries := None;
       opt_retryDelay := None; opt_maxMessageLength := None |} in
  let run :=
    log Host.parseNumber Host.parseNumber Host.numberToString
      Scenarios.primaryDown (constructor opts) Scenarios.paymentEntry
      Scenarios.freshWorld in
  webhookUrls (constructor opts) = []
  /\ truthy (sendDiscordWebhook Scenarios.paymentEntry) = true
  /\ snd run = Normal
  /\ trace (fst run) = [Emit allFailed]
  /\ callbacks (fst run) = 1%nat.
Proof.
  intros opts run.
  destruct (log_without_endpoints Host.parseNumber Host.parseNumber
              Host.numberToString Scenarios.primaryDown opts
              Scenarios.paymentEntry Scenarios.freshWorld eq_refl eq_refl)
    as (Hrun & Htrace & _).
  split; [reflexivity |]. split; [reflexivity |].
  subst run. rewrite Hrun. repeat split.
Defined.

End TransportFacts.

(** ** More on truncation *)

Module TruncationMore.
Import Js Truncation TruncationFacts.

Lemma truncateString_cases (str : jsString) (limit : Z) :
  (truncateString str limit = str
   /\ (str = [] \/ Z.of_nat (length str) <= limit))
  \/ (truncateString str limit = take (Z.to_nat (limit - 3)) str ++ ellipsis
      /\ str <> [] /\ limit < Z.of_nat (length str)).
Proof.
  destruct (decide (str = [])) as [-> | Hne]; [left; by split; [| left] |].
  destruct (Z_le_gt_dec (Z.of_nat (length str)) limit) as [Hle | Hgt].
  - left. split; [by apply truncateString_short | by right].
  - right. split; [apply truncateString_long; [done | lia] |]. split; [done | lia].
Qed.

Lemma truncateString_le (str : jsString) (limit : Z) :
  Z.of_nat (length (truncateString str limit)) <= Z.max limit 3.
Proof.
  destruct (truncateString_cases str limit) as [[-> [-> | H]] | (-> & _ & H)].
  - simpl. lia.
  - lia.
  - rewrite length_app, length_take, length_ellipsis. lia.
Qed.

Lemma truncateString_nonempty (str : jsString) (limit : Z) :
  str <> [] -> truncateString str limit <> [].
Proof.
  intros Hne.
  destruct (truncateString_cases str limit) as [[-> _] | (-> & _ & _)];
    [done |].
  intros E. apply (f_equal length) in E.
  rewrite length_app, length_ellipsis in E. simpl in E. lia.
Qed.

(** X1. [truncateString] on every string and every limit: the result never
    has more than [max limit 3] code units; a string that is empty or
    within the limit comes back unchanged; from limit 3 on the result is
    never longer than the string; below 3 every string that is cut
    becomes the bare marker, which can be longer than the string was. *)
Theorem truncateString_every_string (str : jsString) (limit : Z) :
  Z.of_nat (length (truncateString str limit)) <= Z.max limit 3
  /\ (str = [] \/ Z.of_nat (length str) <= limit ->
      truncateString str limit = str)
  /\ (3 <= limit -> (length (truncateString str limit) <= length str)%nat)
  /\ (limit < 3 -> str <> [] -> limit < Z.of_nat (length str) ->
      truncateString str limit = lit "...").
Proof.
  split; [apply truncateString_le |].
  split.
  { intros [-> | H]; [done | by apply truncateString_short]. }
  split.
  { intros H3.
    destruct (truncateString_cases str limit) as [[-> _] | (-> & _ & H)];
      [done |].
    rewrite length_app, length_take, length_ellipsis. lia. }
  intros Hlt Hne Hlong. rewrite truncateString_long by done.
  replace (Z.to_nat (limit - 3)) with 0%nat by lia. by rewrite take_0.
Qed.

Lemma truncateString_every_string_witness :
  truncateString (lit "stack") 5 = lit "stack"
  /\ truncateString (lit "a") 0 = lit "...".
Proof.
  destruct (truncateString_every_string (lit "stack") 5) as (_ & Hsame & _).
  destruct (truncateString_every_string (lit "a") 0) as (_ & _ & _ & Hcut).
  split.
  - apply Hsame. right. simpl. lia.
  - apply Hcut; [lia | done | simpl; lia].
Defined.

Section Stringify.
Variable String_ : JsValue -> jsString.
Variable JSON_stringify : JsValue -> option jsString.

Lemma stringifyAndTruncate_le (value : JsValue) (limit : Z) :
  3 <= limit -> value <> JsUndefined -> value <> JsNull ->
  Z.of_nat (length (stringifyAndTruncate String_ JSON_stringify value limit))
  <= limit.
Proof.
  intros H3 Hu Hn.
  assert (Hle : forall s, Z.of_nat (length (truncateString s limit)) <= limit).
  { intros s. pose proof (truncateString_le s limit). lia. }
  destruct value; try done; simpl; apply Hle.
Qed.

(** X2. [stringifyAndTruncate]: [undefined] and [null] come back as their
    string form, whatever the limit; a string is truncated as it is (it
    is not JSON-quoted); an object goes through [JSON.stringify], or
    through [String] when that throws; and from limit 3 on, the result
    for any value other than [undefined] and [null] has at most [limit]
    code units. *)
Theorem stringifyAndTruncate_bound (value : JsValue) (limit : Z) :
  (value = JsUndefined \/ value = JsNull ->
   stringifyAndTruncate String_ JSON_stringify value limit = String_ value)
  /\ (forall s, value = JsString s ->
        stringifyAndTruncate String_ JSON_stringify value limit
        = truncateString s limit)
  /\ (forall props, value = JsObject props ->
        stringifyAndTruncate String_ JSON_stringify value limit
        = truncateString
            (default (String_ value) (JSON_stringify value)) limit)
  /\ (3 <= limit -> value <> JsUndefined -> value <> JsNull ->
      Z.of_nat (length (stringifyAndTruncate String_ JSON_stringify value
                          limit)) <= limit).
Proof.
  split; [by intros [-> | ->] |].
  split; [by intros s -> |].
  split.
  { intros props ->. simpl. by destruct (JSON_stringify _). }
  apply stringifyAndTruncate_le.
Qed.
End Stringify.

Lemma stringifyAndTruncate_bound_witness :
  stringifyAndTruncate Host.String_ Host.JSON_stringify JsUndefined 3
  = lit "undefined"
  /\ (Z.of_nat
       (length (stringifyAndTruncate Host.String_ Host.JSON_stringify
                  (JsObject [(lit "reason", JsString (lit "timeout"))]) 10))
     <= 10).
Proof.
  split.
  - destruct (stringifyAndTruncate_bound Host.String_ Host.JSON_stringify
                JsUndefined 3) as (H & _).
    apply H. by left.
  - destruct (stringifyAndTruncate_bound Host.String_ Host.JSON_stringify
                (JsObject [(lit "reason", JsString (lit "timeout"))]) 10)
      as (_ & _ & _ & H).
    apply H; [lia | done | done].
Defined.

End TruncationMore.

(** ** More on error serialization *)

Module SerializationMore.
Import Js Types Truncation Validation ErrorSerialization.
Import TruncationMore SerializationFacts.

(** X3. [isErrorLike] holds exactly of the objects that have a [message]
    property holding a string; no primitive, [null] included, is
    error-like, and neither is an object whose [message] is not a
    string. *)
Theorem isErrorLike_iff (value : JsValue) :
  isErrorLike value = true
  <-> exists props m,
        value = JsObject props
        /\ assoc (lit "message") props = Some (JsString m).
Proof.
  unfold isErrorLike. split.
  - destruct value as [| | | | | | | | props]; try done. simpl.
    destruct (assoc (lit "message") props) as [x |] eqn:E; [| done].
    simpl. destruct x; try done. intros _. by eexists _, _.
  - intros (props & m & -> & Hm). simpl. by rewrite Hm.
Qed.

Section WithLibrary.
Variable baseSerializeError : JsValue -> SerializedError.
Variable String_ : JsValue -> jsString.
Variable JSON_stringify : JsValue -> option jsString.

Local Abbreviation serializeCause := (serializeCause baseSerializeError String_).
Local Abbreviation serializeError :=
  (serializeError baseSerializeError String_ JSON_stringify).

Lemma truncatedStack_within (serialized : SerializedError) (limit : Z) st :
  3 <= limit ->
  truncatedStack serialized limit = Some st ->
  st <> [] /\ Z.of_nat (length st) <= limit.
Proof.
  intros H3. unfold truncatedStack.
  destruct (s_stack serialized) as [s |]; [| done].
  destruct s as [| c s']; [done |]. simpl. intros [= <-]. split.
  - by apply truncateString_nonempty.
  - pose proof (truncateString_le (c :: s') limit). lia.
Qed.

Lemma serializeCause_nodes maxDepth limits :
  3 <= stackLimit limits ->
  forall (n : nat) cause_ currentDepth,
    Z.to_nat (maxDepth + 1 - currentDepth) = n ->
    Forall (fun node => stackWithin (stackLimit limits) node
                        /\ response node = None)
      (nodes (serializeCause cause_ maxDepth currentDepth limits)).
Proof.
  intros H3. induction n as [| n IH]; intros c d Hn;
    rewrite serializeCause_unfold.
  - rewrite decide_True by lia. simpl. by repeat constructor.
  - rewrite decide_False by lia.
    destruct (isErrorLike c); simpl; [| by repeat constructor].
    constructor.
    + split; [| done]. intros st Hst. simpl in Hst.
      by apply truncatedStack_within in Hst.
    + destruct (presentCause (baseSerializeError c)) as [c' |];
        [apply IH; lia | constructor].
Qed.

(** X4. Every node of the tree [serializeError] returns keeps its stack, when
    it has one, non-empty and within [stackLimit] (from limit 3 on, the
    length of the marker); no node below the root carries response
    details; and the [data] of the root's response details, when present,
    is within [responseDataLimit] (again from 3 on). *)
Theorem serializeError_tree_within_limits (error_ : JsValue)
    (limits : SerializationLimits) (Hstack : 3 <= stackLimit limits) :
  Forall (stackWithin (stackLimit limits)) (nodes (serializeError error_ limits))
  /\ Forall (fun node => response node = None)
       (tail (nodes (serializeError error_ limits)))
  /\ (3 <= responseDataLimit limits ->
      forall details d,
        response (serializeError error_ limits) = Some details ->
        data details = Some d ->
        Z.of_nat (length d) <= responseDataLimit limits).
Proof.
  unfold ErrorSerialization.serializeError.
  destruct (isErrorLike error_); simpl.
  - pose proof (fun c =>
        serializeCause_nodes (causeMaxDepth limits) limits Hstack
          (Z.to_nat (causeMaxDepth limits)) c 1 ltac:(f_equal; lia)) as Hc.
    split; [| split].
    + constructor.
      * intros st Hst. simpl in Hst. by apply truncatedStack_within in Hst.
      * destruct (presentCause (baseSerializeError error_)) as [c |];
          [| constructor].
        eapply Forall_impl; [apply Hc |]. by intros node [? ?].
    + destruct (presentCause (baseSerializeError error_)) as [c |];
        [| constructor].
      eapply Forall_impl; [apply Hc |]. by intros node [? ?].
    + intros Hr details d. unfold serializeResponse.
      destruct (s_response (baseSerializeError error_)) as [r |]; [| done].
      destruct (truthy r && isObjectTag (typeof r)); [| done].
      intros [= <-]. simpl.
      destruct (truthy (getProp (lit "data") r)) eqn:Ht; [| done].
      intros [= <-].
      apply (stringifyAndTruncate_le String_ JSON_stringify); [done | |];
        by intros E; rewrite E in Ht.
  - split; [| split]; [| constructor | done].
    constructor; [| constructor]. by intros st Hst.
Qed.
End WithLibrary.

Lemma serializeError_tree_within_limits_witness :
  3 <= stackLimit DEFAULT_LIMITS
  /\ Forall
       (stackWithin (stackLimit DEFAULT_LIMITS))
       (nodes (serializeError Host.baseSerializeError Host.String_
                 Host.JSON_stringify (Host.errorChain 10) DEFAULT_LIMITS)).
Proof.
  assert (H3 : 3 <= stackLimit DEFAULT_LIMITS) by (simpl; lia).
  split; [exact H3 |].
  exact (proj1 (serializeError_tree_within_limits Host.baseSerializeError
                  Host.String_ Host.JSON_stringify (Host.errorChain 10)
                  DEFAULT_LIMITS H3)).
Defined.

End SerializationMore.

(** ** Identifiers *)

Module IdFacts.
Import Js Validation IdGeneration.

Lemma startsWith_app (p rest : jsString) : startsWith (p ++ rest) p = true.
Proof.
  unfold startsWith. apply bool_decide_eq_true_2.
  by rewrite take_app_length.
Qed.

Lemma startsWith_split (s p : jsString) :
  startsWith s p = true -> s = p ++ drop (length p) s.
Proof.
  unfold startsWith. intros H. apply bool_decide_eq_true_1 in H.
  rewrite <- (take_drop (length p) s) at 1. by rewrite H.
Qed.

Lemma prefixed_iff (p : jsString) (s : jsString) :
  length p = 4%nat ->
  startsWith s p && bool_decide (4 < length s)%nat = true
  <-> exists rest, rest <> [] /\ s = p ++ rest.
Proof.
  intros Hp. split.
  - intros H. apply andb_true_iff in H as [Hs Hl].
    apply bool_decide_eq_true_1 in Hl.
    exists (drop (length p) s). split.
    + intros E. apply (f_equal length) in E. rewrite length_drop in E.
      simpl in E. lia.
    + by apply startsWith_split.
  - intros (rest & Hne & ->). rewrite startsWith_app. simpl.
    apply bool_decide_eq_true_2. rewrite length_app.
    destruct rest; [done | simpl; lia].
Qed.

Lemma isValidSessionID_iff (id : JsValue) :
  isValidSessionID id = true
  <-> exists rest, rest <> [] /\ id = JsString (lit "sid-" ++ rest).
Proof.
  destruct id as [| | | | | s | | |];
    try (split; [done | by intros (? & _ & ?)]).
  cbn [isValidSessionID isValidErrorID].
  rewrite (prefixed_iff (lit "sid-") s eq_refl).
  split; intros (rest & Hne & E); exists rest; (split; [done |]).
  - by rewrite E.
  - by injection E.
Qed.

Lemma isValidErrorID_iff (id : JsValue) :
  isValidErrorID id = true
  <-> exists rest, rest <> [] /\ id = JsString (lit "eid-" ++ rest).
Proof.
  destruct id as [| | | | | s | | |];
    try (split; [done | by intros (? & _ & ?)]).
  cbn [isValidSessionID isValidErrorID].
  rewrite (prefixed_iff (lit "eid-") s eq_refl).
  split; intros (rest & Hne & E); exists rest; (split; [done |]).
  - by rewrite E.
  - by injection E.
Qed.

Lemma id_checks_exclusive (id : JsValue) :
  ~ (isValidSessionID id = true /\ isValidErrorID id = true).
Proof.
  intros [H1 H2]. apply isValidSessionID_iff in H1 as (r1 & _ & ->).
  apply isValidErrorID_iff in H2 as (r2 & _ & E). discriminate E.
Qed.

(** X5. The two identifier checks accept exactly the strings [sid-] or
    [eid-] followed by at least one more code unit, and nothing that is
    not a string; no value passes both. *)
Theorem id_formats (id : JsValue) :
  (isValidSessionID id = true
   <-> exists rest, rest <> [] /\ id = JsString (lit "sid-" ++ rest))
  /\ (isValidErrorID id = true
      <-> exists rest, rest <> [] /\ id = JsString (lit "eid-" ++ rest))
  /\ ~ (isValidSessionID id = true /\ isValidErrorID id = true).
Proof.
  split; [apply isValidSessionID_iff |].
  split; [apply isValidErrorID_iff | apply id_checks_exclusive].
Qed.

Lemma toHex_length (bytes : list Byte.byte) :
  length (toHex bytes) = (2 * length bytes)%nat.
Proof. induction bytes as [| b bytes IH]; simpl; lia. Qed.

Lemma hexDigit_hex (n : N) : (n < 16)%N -> isHexDigit (hexDigit n) = true.
Proof.
  intros H. unfold isHexDigit, hexDigit.
  destruct (n <? 10)%N eqn:E.
  - apply N.ltb_lt in E.
    replace (48 <=? 48 + n)%N with true by (symmetry; apply N.leb_le; lia).
    replace (48 + n <=? 57)%N with true by (symmetry; apply N.leb_le; lia).
    done.
  - apply N.ltb_ge in E.
    replace (97 <=? 87 + n)%N with true by (symmetry; apply N.leb_le; lia).
    replace (87 + n <=? 102)%N with true by (symmetry; apply N.leb_le; lia).
    by rewrite orb_true_r.
Qed.

Lemma toHex_digits (bytes : list Byte.byte) :
  Forall (fun c => isHexDigit c = true) (toHex bytes).
Proof.
  induction bytes as [| b bytes IH]; [constructor |]. simpl.
  pose proof (Byte.to_N_bounded b) as Hb.
  constructor; [| constructor; [| done]]; apply hexDigit_hex.
  - apply N.Div0.div_lt_upper_bound. lia.
  - apply N.mod_lt. lia.
Qed.

Lemma createSessionID_valid (randomBytes8 : list Byte.byte) :
  length randomBytes8 = 8%nat ->
  isValidSessionID (JsString (createSessionID randomBytes8)) = true.
Proof.
  intros Hbytes. apply isValidSessionID_iff. exists (toHex randomBytes8).
  split; [| done]. intros E. apply (f_equal length) in E.
  rewrite toHex_length in E. simpl in E. lia.
Qed.

Lemma createErrorID_valid (randomBytes8 : list Byte.byte) :
  length randomBytes8 = 8%nat ->
  isValidErrorID (JsString (createErrorID randomBytes8)) = true.
Proof.
  intros Hbytes. apply isValidErrorID_iff. exists (toHex randomBytes8).
  split; [| done]. intros E. apply (f_equal length) in E.
  rewrite toHex_length in E. simpl in E. lia.
Qed.

(** X6. An identifier made from the 8 random bytes is the prefix followed by
    16 lower-case hexadecimal digits, 20 code units in all; a generated
    session identifier passes [isValidSessionID], a generated error
    identifier passes [isValidErrorID], and neither passes the other
    check. *)
Theorem generated_ids (randomBytes8 : list Byte.byte)
    (Hbytes : length randomBytes8 = 8%nat) :
  isValidSessionID (JsString (createSessionID randomBytes8)) = true
  /\ isValidErrorID (JsString (createErrorID randomBytes8)) = true
  /\ isValidErrorID (JsString (createSessionID randomBytes8)) = false
  /\ isValidSessionID (JsString (createErrorID randomBytes8)) = false
  /\ length (createSessionID randomBytes8) = 20%nat
  /\ length (createErrorID randomBytes8) = 20%nat
  /\ Forall (fun c => isHexDigit c = true)
       (drop 4 (createSessionID randomBytes8))
  /\ Forall (fun c => isHexDigit c = true)
       (drop 4 (createErrorID randomBytes8)).
Proof.
  pose proof (createSessionID_valid randomBytes8 Hbytes) as Hs.
  pose proof (createErrorID_valid randomBytes8 Hbytes) as He.
  split; [exact Hs |]. split; [exact He |].
  split.
  { destruct (isValidErrorID (JsString (createSessionID randomBytes8)))
      eqn:E; [| done].
    destruct (id_checks_exclusive (JsString (createSessionID randomBytes8))).
    by split. }
  split.
  { destruct (isValidSessionID (JsString (createErrorID randomBytes8)))
      eqn:E; [| done].
    destruct (id_checks_exclusive (JsString (createErrorID randomBytes8))).
    by split. }
  split.
  { unfold createSessionID. by rewrite length_app, toHex_length, Hbytes. }
  split.
  { unfold createErrorID. by rewrite length_app, toHex_length, Hbytes. }
  split; apply toHex_digits.
Qed.

Lemma generated_ids_witness :
  length Scenarios.sampleBytes = 8%nat
  /\ createSessionID Scenarios.sampleBytes
     = lit "sid-00017f80a3f2d8ff"
  /\ isValidSessionID
       (JsString (createSessionID Scenarios.sampleBytes))
     = true.
Proof.
  split; [reflexivity |]. split; [reflexivity |].
  exact (proj1 (generated_ids Scenarios.sampleBytes
                  eq_refl)).
Defined.

End IdFacts.

(** ** The scoped logger *)

Module ScopedLoggerFacts.
Import Js Types Validation ErrorSerialization IdGeneration ScopedLogger.
Import IdFacts.

Lemma valid_error_id_truthy (s : jsString) :
  isValidErrorID (JsString s) = true -> truthyString s = true.
Proof.
  intros H. apply isValidErrorID_iff in H as (rest & _ & [= ->]). done.
Qed.

Lemma valid_session_id_truthy (s : jsString) :
  isValidSessionID (JsString s) = true -> truthyString s = true.
Proof.
  intros H. apply isValidSessionID_iff in H as (rest & _ & [= ->]). done.
Qed.

Lemma normalizeSessionID_some (sessionID_ : option jsString) (x : jsString) :
  fst (normalizeSessionID sessionID_) = Some x ->
  sessionID_ = Some x /\ isValidSessionID (JsString x) = true.
Proof.
  unfold normalizeSessionID. destruct sessionID_ as [s |]; [| done].
  destruct (truthyString s); cbn [fst snd negb]; [| done].
  destruct (isValidSessionID (JsString s)) eqn:Hv; cbn [fst]; [| done].
  by intros [= <-].
Qed.

Lemma normalizeErrorID_some (randomBytes8 : list Byte.byte)
    (errorID_ : option jsString) (level_ : LogLevel) (x : jsString) :
  length randomBytes8 = 8%nat ->
  fst (normalizeErrorID randomBytes8 errorID_ level_) = Some x ->
  isValidErrorID (JsString x) = true.
Proof.
  intros Hbytes. pose proof (createErrorID_valid randomBytes8 Hbytes) as Hgen.
  unfold normalizeErrorID.
  destruct errorID_ as [s |]; [destruct (truthyString s) |];
    cbn [fst snd negb];
    try (by destruct level_; cbn [fst snd isErrorLevel]; intros [= <-]).
  destruct (isValidErrorID (JsString s)) eqn:Hv; cbn [fst snd];
    [by intros [= <-] |].
  by destruct level_; cbn [fst snd isErrorLevel]; intros [= <-].
Qed.

Lemma normalizeErrorID_at_error (randomBytes8 : list Byte.byte)
    (errorID_ : option jsString) :
  is_Some (fst (normalizeErrorID randomBytes8 errorID_ L_error)).
Proof.
  unfold normalizeErrorID.
  destruct errorID_ as [s |]; [destruct (truthyString s) |];
    cbn [fst snd negb isErrorLevel]; try by eexists.
  destruct (isValidErrorID (JsString s)); by eexists.
Qed.

(** X7. [normalizeSessionID] never makes an identifier up: it returns the
    identifier it was given when that one is valid, and [null] otherwise;
    it warns exactly when it was given a non-empty identifier that is not
    valid. *)
Theorem normalizeSessionID_result (sessionID_ : option jsString) :
  (forall x, fst (normalizeSessionID sessionID_) = Some x ->
             sessionID_ = Some x /\ isValidSessionID (JsString x) = true)
  /\ (forall s, sessionID_ = Some s ->
                isValidSessionID (JsString s) = true ->
                normalizeSessionID sessionID_ = (Some s, []))
  /\ (snd (normalizeSessionID sessionID_) <> []
      <-> exists s, sessionID_ = Some s /\ s <> []
                    /\ isValidSessionID (JsString s) = false).
Proof.
  unfold normalizeSessionID.
  destruct sessionID_ as [s |].
  - destruct (truthyString s) eqn:Ht; cbn [fst snd negb].
    + destruct (isValidSessionID (JsString s)) eqn:Hv; cbn [fst snd].
      * split; [by intros x [= <-] |]. split; [by intros s' [= <-] |].
        split; [done |]. intros (s' & [= <-] & _ & E). congruence.
      * split; [done |]. split; [intros s' [= <-]; congruence |].
        split; [| done]. intros _. exists s. by destruct s.
    + split; [done |]. split.
      * intros s' [= <-] Hv. apply valid_session_id_truthy in Hv. congruence.
      * split; [done |]. intros (s' & E & Hne & _).
        assert (s = s') by congruence. subst s'. by destruct s.
  - split; [done |]. split; [done |]. split; [done |]. by intros (? & ? & _).
Qed.

Lemma normalizeSessionID_result_witness :
  normalizeSessionID (Some (lit "sid-42")) = (Some (lit "sid-42"), [])
  /\ fst (normalizeSessionID (Some (lit "42"))) = None.
Proof.
  destruct (normalizeSessionID_result (Some (lit "sid-42"))) as (_ & Hkeep & _).
  split; [by apply Hkeep |]. reflexivity.
Defined.

(** X8. [normalizeErrorID] returns [null] or a valid error identifier; at
    level [error] it never returns [null]: a missing, empty or invalid
    identifier is replaced by a generated one; at the other levels such
    an identifier gives [null]; a valid identifier is returned as it is
    at every level; and a warning is printed exactly when a non-empty
    identifier that is not valid was given. *)
Theorem normalizeErrorID_result (randomBytes8 : list Byte.byte)
    (errorID_ : option jsString) (level_ : LogLevel)
    (Hbytes : length randomBytes8 = 8%nat) :
  (forall x, fst (normalizeErrorID randomBytes8 errorID_ level_) = Some x ->
             isValidErrorID (JsString x) = true)
  /\ (level_ = L_error ->
      is_Some (fst (normalizeErrorID randomBytes8 errorID_ level_)))
  /\ (forall s, errorID_ = Some s ->
                isValidErrorID (JsString s) = true ->
                normalizeErrorID randomBytes8 errorID_ level_ = (Some s, []))
  /\ ((forall s, errorID_ = Some s -> isValidErrorID (JsString s) = false) ->
      fst (normalizeErrorID randomBytes8 errorID_ level_)
      = if isErrorLevel level_ then Some (createErrorID randomBytes8)
        else None)
  /\ (snd (normalizeErrorID randomBytes8 errorID_ level_) <> []
      <-> exists s, errorID_ = Some s /\ s <> []
                    /\ isValidErrorID (JsString s) = false).
Proof.
  pose proof (createErrorID_valid randomBytes8 Hbytes) as Hgen.
  unfold normalizeErrorID.
  destruct errorID_ as [s |].
  - destruct (truthyString s) eqn:Ht; cbn [fst snd negb].
    + destruct (isValidErrorID (JsString s)) eqn:Hv; cbn [fst snd].
      * split; [by intros x [= <-] |]. split; [by intros _; eexists |].
        split; [by intros s' [= <-] |].
        split; [intros H; specialize (H s eq_refl); congruence |].
        split; [done |]. intros (s' & [= <-] & _ & E). congruence.
      * split; [by destruct level_; cbn [fst snd isErrorLevel]; intros x [= <-] |].
        split; [by intros ->; eexists |].
        split; [intros s' [= <-]; congruence |].
        split; [by intros _; destruct level_ |].
        split; [| done]. intros _. exists s. by destruct s.
    + split; [by destruct level_; cbn [fst snd isErrorLevel]; intros x [= <-] |].
      split; [by intros ->; eexists |].
      split.
      { intros s' [= <-] Hv. apply valid_error_id_truthy in Hv. congruence. }
      split; [by intros _; destruct level_ |].
      split; [by destruct level_ |].
      intros (s' & E & Hne & _).
        assert (s = s') by congruence. subst s'. by destruct s.
  - cbn [fst snd].
    split; [by destruct level_; cbn [fst snd isErrorLevel]; intros x [= <-] |].
    split; [by intros ->; eexists |].
    split; [done |]. split; [by intros _; destruct level_ |].
    split; [by destruct level_ |]. by intros (? & ? & _).
Qed.

Lemma normalizeErrorID_result_witness :
  length Scenarios.sampleBytes = 8%nat
  /\ is_Some (fst (normalizeErrorID Scenarios.sampleBytes None L_error))
  /\ normalizeErrorID Scenarios.sampleBytes (Some (lit "eid-7")) L_warn
     = (Some (lit "eid-7"), []).
Proof.
  destruct (normalizeErrorID_result Scenarios.sampleBytes None L_error eq_refl)
    as (_ & Hsome & _).
  destruct (normalizeErrorID_result Scenarios.sampleBytes
              (Some (lit "eid-7")) L_warn eq_refl)
    as (_ & _ & Hkeep & _).
  split; [reflexivity |]. split; [by apply Hsome | by apply Hkeep].
Defined.

Section WithLogger.
Variable baseSerializeError : JsValue -> SerializedError.
Variable String_ : JsValue -> jsString.
Variable JSON_stringify : JsValue -> option jsString.
Variable this : ScopedLogger.

Local Abbreviation normalizeError :=
  (normalizeError baseSerializeError String_ JSON_stringify this).
Local Abbreviation log :=
  (log baseSerializeError String_ JSON_stringify this).

(** X9. [normalizeError] serializes every value with [serializeError] under
    the limits of the logger, with one exception: an object that has a
    [message] property which is not a string is returned as it was
    given, unserialized. *)
Theorem normalizeError_cases (error_ : JsValue) :
  (forall v, normalizeError error_ = AsGiven v ->
     v = error_
     /\ exists props x,
          error_ = JsObject props
          /\ assoc (lit "message") props = Some x
          /\ isStringTag (typeof x) = false)
  /\ (forall e, normalizeError error_ = Serialized e ->
        e = serializeError baseSerializeError String_ JSON_stringify error_
              (this_limits this))
  /\ (forall props x,
        error_ = JsObject props ->
        assoc (lit "message") props = Some x ->
        isStringTag (typeof x) = false ->
        normalizeError error_ = AsGiven error_).
Proof.
  unfold ScopedLogger.normalizeError.
  destruct (isErrorLike error_) eqn:Hlike.
  - split; [done |]. split; [by intros e [= <-] |].
    intros props x -> Hx Ht. unfold isErrorLike in Hlike. simpl in Hlike.
    rewrite Hx in Hlike. simpl in Hlike. congruence.
  - destruct (isObjectTag (typeof error_)) eqn:Hobj.
    2: { rewrite andb_false_r. simpl.
         split; [done |]. split; [by intros e [= <-] |].
         by intros props x ->. }
    destruct error_ as [| | | | | | | | props]; try done.
    + simpl. split; [done |]. split; [by intros e [= <-] | done].
    + simpl. unfold isErrorLike in Hlike. simpl in Hlike.
      destruct (assoc (lit "message") props) as [x |] eqn:Hx; simpl in *.
      * split; [| split; [done |]].
        -- intros v [= <-]. split; [done |]. by exists props, x.
        -- by intros props' x' [= <-].
      * split; [done |]. split; [by intros e [= <-] |].
        intros props' x' [= <-]. congruence.
Qed.

(** X10. The entry that [log] hands to winston: its alert flag is set only if
    the caller set it; its error identifier is [null] or valid, and never
    [null] at level [error]; its session identifier is [null] or the
    valid one the caller gave; an empty comment and a falsy error are
    left out. *)
Theorem log_entry_invariants (now_ : jsString)
    (randomBytes8 : list Byte.byte) (level_ : LogLevel)
    (message_ identifier_ : jsString) (entries : option LogEntries)
    (Hbytes : length randomBytes8 = 8%nat) :
  let entry :=
    snd (log now_ randomBytes8 level_ message_ identifier_ entries) in
  (sendDiscordWebhook entry = true
   <-> exists e, entries = Some e /\ e_sendDiscordWebhook e = Some true)
  /\ (forall x, errorID entry = Some x -> isValidErrorID (JsString x) = true)
  /\ (level_ = L_error -> is_Some (errorID entry))
  /\ (forall x, sessionID entry = Some x ->
        isValidSessionID (JsString x) = true
        /\ exists e, entries = Some e /\ e_sessionID e = Some x)
  /\ comment entry <> Some []
  /\ (forall n, error entry = Some n ->
        exists e v, entries = Some e /\ e_error e = Some v
                    /\ truthy v = true /\ n = normalizeError v)
  /\ level entry = level_ /\ origin entry = this_origin this
  /\ service entry = this_service this.
Proof.
  intros entry. subst entry. unfold ScopedLogger.log.
  pose proof (normalizeSessionID_some (entries ≫= e_sessionID)) as Hsid.
  pose proof (fun x =>
      normalizeErrorID_some randomBytes8 (entries ≫= e_errorID) level_ x
        Hbytes) as Heid.
  assert (Hsome : level_ = L_error ->
            is_Some (fst (normalizeErrorID randomBytes8
                            (entries ≫= e_errorID) level_)))
    by (intros ->; apply normalizeErrorID_at_error).
  destruct (normalizeSessionID _) as [sid w1].
  destruct (normalizeErrorID _ _ _) as [eid w2]. simpl in *.
  split.
  { destruct entries as [e |]; simpl.
    - destruct (e_sendDiscordWebhook e) as [[|] |] eqn:E; simpl.
      + split; [by exists e | done].
      + split; [done |]. intros (e' & [= <-] & E'). congruence.
      + split; [done |]. intros (e' & [= <-] & E'). congruence.
    - split; [done |]. by intros (e' & ? & _). }
  split; [done |]. split; [done |].
  split.
  { intros x Hx. destruct (Hsid x Hx) as [Hgiven Hvalid]. split; [done |].
    destruct entries as [e |]; [by exists e | done]. }
  split.
  { destruct (entries ≫= e_comment) as [[| c cs] |]; done. }
  split.
  { intros n. destruct entries as [e |]; [| done]. simpl.
    destruct (e_error e) as [v |] eqn:Ev; [| done].
    destruct (truthy v) eqn:Ht; [| done].
    intros [= <-]. by exists e, v. }
  done.
Qed.
End WithLogger.

Lemma normalizeError_cases_witness :
  let logger :=
    {| this_origin := lit "payments"; this_service := lit "shop";
       this_limits := DEFAULT_LIMITS |} in
  let given := JsObject [(lit "message", JsNumber (Num 5))] in
  normalizeError Host.baseSerializeError Host.String_ Host.JSON_stringify
    logger given
  = AsGiven given.
Proof.
  intros logger given.
  destruct (normalizeError_cases Host.baseSerializeError Host.String_
              Host.JSON_stringify logger given) as (_ & _ & Hgiven).
  by apply (Hgiven [(lit "message", JsNumber (Num 5))] (JsNumber (Num 5))).
Defined.

Lemma log_entry_invariants_witness :
  let entry :=
    snd (log Host.baseSerializeError Host.String_ Host.JSON_stringify
           {| this_origin := lit "payments"; this_service := lit "shop";
              this_limits := DEFAULT_LIMITS |}
           (lit "2024-01-01T00:00:00.000Z") Scenarios.sampleBytes L_error
           (lit "card declined") (lit "charge") None) in
  length Scenarios.sampleBytes = 8%nat
  /\ sendDiscordWebhook entry = false
  /\ errorID entry = Some (lit "eid-00017f80a3f2d8ff").
Proof.
  intros entry.
  destruct (log_entry_invariants Host.baseSerializeError Host.String_
              Host.JSON_stringify
              {| this_origin := lit "payments"; this_service := lit "shop";
                 this_limits := DEFAULT_LIMITS |}
              (lit "2024-01-01T00:00:00.000Z") Scenarios.sampleBytes L_error
              (lit "card declined") (lit "charge") None eq_refl)
    as (Hflag & _ & Hsome & _).
  split; [reflexivity |]. split; [reflexivity |].
  destruct (Hsome eq_refl) as [x Hx]. reflexivity.
Defined.

End ScopedLoggerFacts.

(** ** The component filter *)

Module ComponentFilterFacts.
Import Js ComponentFilter TransportFactory.

Lemma keep_kept (entry filtered : Entry) (c : jsString) :
  keep entry filtered c
  = match kept entry c with
    | Some x => <[c := x]> filtered
    | None => filtered
    end.
Proof.
  unfold keep, kept. destruct (entry !! c) as [v |]; [| done].
  destruct (isNullish v); simpl; [| done]. by destruct (isIdComponent c).
Qed.

Lemma foldl_keep_lookup (entry : Entry) (cs : list jsString) :
  forall (acc : Entry) (k : jsString),
    foldl (keep entry) acc cs !! k
    = if decide (k ∈ cs)
      then match kept entry k with Some x => Some x | None => acc !! k end
      else acc !! k.
Proof.
  induction cs as [| c cs IH]; intros acc k; cbn [foldl].
  - destruct (decide (k ∈ [])) as [H | H]; [by apply not_elem_of_nil in H | done].
  - rewrite IH, keep_kept.
    destruct (decide (k = c)) as [-> | Hne].
    + rewrite (decide_True (P := c ∈ c :: cs)) by (apply elem_of_cons; by left).
      destruct (kept entry c) as [x |] eqn:E.
      * rewrite lookup_insert_eq. by destruct (decide (c ∈ cs)).
      * by destruct (decide (c ∈ cs)).
    + assert (Hacc : match kept entry c with
                     | Some x => <[c := x]> acc
                     | None => acc
                     end !! k = acc !! k).
      { destruct (kept entry c); [by rewrite lookup_insert_ne | done]. }
      rewrite Hacc.
      destruct (decide (k ∈ cs)) as [Hin | Hnin].
      * by rewrite decide_True by (apply elem_of_cons; by right).
      * rewrite decide_False; [done |].
        intros [? | ?]%elem_of_cons; done.
Qed.

Lemma filterLogEntry_lookup (entry : Entry) (components : Components)
    (transportType k : jsString) :
  filterLogEntry entry components transportType !! k
  = if decide (k ∈ componentList components transportType)
    then kept entry k else None.
Proof.
  unfold filterLogEntry. rewrite foldl_keep_lookup, lookup_empty.
  destruct (decide _); [| done]. by destruct (kept entry k).
Qed.

(** X11. [filterLogEntry] keeps a property only if it is listed and the entry
    has it, and never changes a value: a listed property that is neither
    [null] nor [undefined] is copied as it is; one that is [null] or
    [undefined] is dropped, unless it is [sessionID] or [errorID], which
    is then written as [null]. *)
Theorem filterLogEntry_keeps (entry : Entry) (components : Components)
    (transportType k : jsString) :
  let filtered := filterLogEntry entry components transportType in
  let listed := componentList components transportType in
  (forall v, filtered !! k = Some v ->
     k ∈ listed
     /\ ((entry !! k = Some v /\ isNullish v = false)
         \/ (v = JsNull /\ isIdComponent k = true
             /\ exists v0, entry !! k = Some v0 /\ isNullish v0 = true)))
  /\ (forall v, k ∈ listed -> entry !! k = Some v -> isNullish v = false ->
        filtered !! k = Some v)
  /\ (forall v, k ∈ listed -> entry !! k = Some v -> isNullish v = true ->
        filtered !! k = if isIdComponent k then Some JsNull else None)
  /\ (k ∉ listed \/ entry !! k = None -> filtered !! k = None).
Proof.
  intros filtered listed. subst filtered listed.
  rewrite filterLogEntry_lookup. unfold kept.
  destruct (decide (k ∈ componentList components transportType)) as [Hin | Hnin].
  - destruct (entry !! k) as [v0 |] eqn:E.
    + destruct (isNullish v0) eqn:Hn; simpl.
      * split.
        { destruct (isIdComponent k) eqn:Hid; [| done].
          intros v [= <-]. split; [done |]. right. by eauto. }
        split; [intros v _ [= <-]; congruence |].
        split; [by intros v _ [= <-] |].
        by intros [? | ?].
      * split; [intros v [= <-]; by eauto |].
        split; [by intros v _ [= <-] |].
        split; [intros v _ [= <-]; congruence |].
        by intros [? | ?].
    + split; [done |]. split; [done |]. split; [done |]. done.
  - split; [done |]. split; [done |]. split; [done |]. done.
Qed.

Lemma filterLogEntry_keeps_witness :
  let entry : Entry :=
    {[ lit "message" := JsString (lit "card declined");
       lit "service" := JsString (lit "shop");
       lit "sessionID" := JsUndefined;
       lit "comment" := JsNull ]} in
  filterLogEntry entry Default (lit "discord") !! lit "message"
  = Some (JsString (lit "card declined"))
  /\ filterLogEntry entry Default (lit "discord") !! lit "service" = None
  /\ filterLogEntry entry Default (lit "discord") !! lit "sessionID"
     = Some JsNull
  /\ filterLogEntry entry Default (lit "discord") !! lit "comment" = None.
Proof.
  intros entry.
  destruct (filterLogEntry_keeps entry Default (lit "discord") (lit "message"))
    as (_ & Hcopy & _).
  destruct (filterLogEntry_keeps entry Default (lit "discord") (lit "service"))
    as (_ & _ & _ & Hunlisted).
  destruct (filterLogEntry_keeps entry Default (lit "discord")
              (lit "sessionID")) as (_ & _ & Hid & _).
  destruct (filterLogEntry_keeps entry Default (lit "discord") (lit "comment"))
    as (_ & _ & Hnull & _).
  split; [apply Hcopy; [by apply (bool_decide_unpack _); vm_compute | done ..] |].
  split.
  { apply Hunlisted. left. intros Hin.
    apply (bool_decide_pack _) in Hin. by vm_compute in Hin. }
  split.
  - apply (Hid JsUndefined);
      [by apply (bool_decide_unpack _); vm_compute | done ..].
  - apply (Hnull JsNull);
      [by apply (bool_decide_unpack _); vm_compute | done ..].
Defined.

(** X12. Filtering twice with the same components is filtering once. *)
Theorem filterLogEntry_idempotent (entry : Entry) (components : Components)
    (transportType : jsString) :
  filterLogEntry (filterLogEntry entry components transportType) components
    transportType
  = filterLogEntry entry components transportType.
Proof.
  apply map_eq. intros k. rewrite !filterLogEntry_lookup.
  destruct (decide _) as [Hin | Hnin]; [| done].
  unfold kept at 1. rewrite filterLogEntry_lookup, decide_True by done.
  unfold kept. destruct (entry !! k) as [v |]; [| done].
  destruct (isNullish v) eqn:Hn; simpl.
  - by destruct (isIdComponent k) eqn:Hid; simpl; rewrite ?Hid.
  - by rewrite ?Hn.
Qed.

(** X13. The format that [createFilterFormat] builds removes nothing: the
    entry it returns has exactly the properties of the entry it was
    given, whatever components are configured, each with its value; the
    one change it can make is to turn an [undefined] [sessionID] or
    [errorID] that is listed into [null]. *)
Theorem filterFormat_removes_nothing (components : Components)
    (transportType : jsString) (info : Entry) :
  dom (filterFormat components transportType info) = dom info
  /\ (forall k,
        filterFormat components transportType info !! k
        = match info !! k with
          | Some v =>
            if isNullish v && isIdComponent k
               && bool_decide (k ∈ componentList components transportType)
            then Some JsNull else Some v
          | None => None
          end).
Proof.
  assert (Hlookup : forall k,
    filterFormat components transportType info !! k
    = match info !! k with
      | Some v =>
        if isNullish v && isIdComponent k
           && bool_decide (k ∈ componentList components transportType)
        then Some JsNull else Some v
      | None => None
      end).
  { intros k. unfold filterFormat.
    rewrite lookup_union, filterLogEntry_lookup. unfold kept.
    destruct (info !! k) as [v |] eqn:E.
    - destruct (decide _) as [Hin | Hnin].
      + rewrite bool_decide_eq_true_2 by done. rewrite andb_true_r.
        destruct (isNullish v); simpl; [| done].
        by destruct (isIdComponent k).
      + rewrite bool_decide_eq_false_2 by done. by rewrite andb_false_r.
    - by destruct (decide _). }
  split; [| done].
  apply set_eq. intros k. rewrite !elem_of_dom, Hlookup.
  destruct (info !! k) as [v |]; [| done].
  split; [by eauto |]. intros _. by destruct (_ && _).
Qed.

(** X14. [validateComponents] returns the names that are not components, in
    the order given; it returns none exactly when every name is one of
    the twelve components; and every list of [DEFAULT_COMPONENTS] passes
    it. *)
Theorem validateComponents_sound (components : list jsString) :
  (forall c, c ∈ validateComponents components
             <-> c ∈ components /\ c ∉ validComponents)
  /\ (validateComponents components = []
      <-> Forall (fun c => c ∈ validComponents) components)
  /\ (forall transportType cs,
        lookupComponents transportType DEFAULT_COMPONENTS = Some cs ->
        validateComponents cs = []).
Proof.
  split.
  { intros c. unfold validateComponents.
    rewrite list_elem_of_In, List.filter_In, <- list_elem_of_In.
    rewrite negb_true_iff, bool_decide_eq_false. done. }
  split.
  { unfold validateComponents.
    induction components as [| c cs IH]; simpl; [by split |].
    case_bool_decide as Hc; simpl.
    - rewrite IH. split; [by constructor | by inversion 1].
    - split; [done |]. by inversion 1. }
  intros t cs. simpl.
  repeat (case_decide; [by intros [= <-]; vm_compute |]). done.
Qed.

Lemma validateComponents_sound_witness :
  exists cs,
    lookupComponents (lit "discord") DEFAULT_COMPONENTS = Some cs
    /\ validateComponents cs = [].
Proof.
  destruct (validateComponents_sound []) as (_ & _ & Hdefault).
  eexists. split; [reflexivity |].
  by apply (Hdefault (lit "discord")).
Defined.

End ComponentFilterFacts.

(** ** Configuration *)

Module ConfigFacts.
Import Js Types Validation Transport Config.

Lemma when_nil (b : bool) (message : string) :
  when b message = [] <-> b = false.
Proof. by destruct b. Qed.

Lemma missingString_spec (v : JsValue) :
  missingString v = negb (isNonEmptyString v).
Proof.
  unfold missingString.
  destruct v as [| | | | | s | | |]; simpl; rewrite ?orb_true_r; try done.
  by destruct s.
Qed.

Lemma notPositive_false (f : Field Z) :
  notPositive f = false <-> forall z, read f = Some z -> 0 < z.
Proof.
  unfold notPositive. destruct (read f) as [z |].
  - rewrite Z.leb_gt. split; [by intros H z' [= <-] | by eauto].
  - by split.
Qed.

Lemma valid_iff_no_errors (config : LoggerConfig) :
  valid (validateConfig config) = true
  <-> errors (validateConfig config) = [].
Proof.
  unfold validateConfig. cbn [valid errors].
  rewrite bool_decide_eq_true. apply length_zero_iff_nil.
Qed.
Lemma validateConfig_checks (config : LoggerConfig) :
  let t := default noTransports (transports config) in
  valid (validateConfig config) = true
  <-> serviceOk config /\ hasEnabledTransport t = true /\ limitsOk config
      /\ discordOk t /\ sentryOk t /\ gcpOk t.
Proof.
  intros t. rewrite valid_iff_no_errors.
  unfold validateConfig. cbn [errors]. fold t.
  rewrite !app_nil, !when_nil.
  rewrite missingString_spec, !negb_false_iff.
  unfold serviceOk, limitsOk, discordOk, sentryOk, gcpOk.
  assert (Hl :
    match limits config with
    | Some l =>
      when (notPositive (p_stackLimit l))
        "limits.stackLimit must be a positive number"
      ++ when (notPositive (p_responseDataLimit l))
           "limits.responseDataLimit must be a positive number"
      ++ when (notPositive (p_causeMaxDepth l))
           "limits.causeMaxDepth must be a positive number"
    | None => []
    end = []
    <-> forall l, limits config = Some l ->
          (forall z, read (p_stackLimit l) = Some z -> 0 < z)
          /\ (forall z, read (p_responseDataLimit l) = Some z -> 0 < z)
          /\ (forall z, read (p_causeMaxDepth l) = Some z -> 0 < z)).
  { destruct (limits config) as [l |]; [| by split].
    rewrite !app_nil, !when_nil, !notPositive_false.
    split; [by intros H l' [= <-] | by eauto]. }
  assert (Hd :
    match discord t with
    | Some d =>
      when (discord_enabled d
            && match read (discord_webhookUrls d) with
               | Some urls => bool_decide (length urls = 0%nat)
               | None => true
               end)
        "transports.discord.webhookUrls must contain at least one URL when Discord transport is enabled"
    | None => []
    end = []
    <-> forall d, discord t = Some d -> discord_enabled d = true ->
          exists urls, read (discord_webhookUrls d) = Some urls /\ urls <> []).
  { destruct (discord t) as [d |]; [| by split].
    rewrite when_nil. split.
    - intros H d' E He. assert (d' = d) by congruence. subst d'.
      rewrite He in H. simpl in H.
      destruct (read (discord_webhookUrls d)) as [urls |]; [| done].
      exists urls. split; [done |]. intros ->. done.
    - intros H. destruct (discord_enabled d) eqn:He; [| done]. simpl.
      destruct (H d eq_refl He) as (urls & -> & Hne).
      apply bool_decide_eq_false_2. by destruct urls. }
  assert (Hs :
    match sentry t with
    | Some c =>
      when (sentry_enabled c && missingString (sentry_dsn c))
        "transports.sentry.dsn is required when Sentry transport is enabled"
    | None => []
    end = []
    <-> forall c, sentry t = Some c -> sentry_enabled c = true ->
          isNonEmptyString (sentry_dsn c) = true).
  { destruct (sentry t) as [c |]; [| by split].
    rewrite when_nil, missingString_spec. split.
    - intros H c' E He. assert (c' = c) by congruence. subst c'.
      rewrite He in H. by apply negb_false_iff in H.
    - intros H. destruct (sentry_enabled c) eqn:He; [| done].
      simpl. by rewrite (H c eq_refl He). }
  assert (Hg :
    match gcp t with
    | Some c =>
      when (gcp_enabled c && missingString (gcp_projectId c))
        "transports.gcp.projectId is required when GCP transport is enabled"
    | None => []
    end = []
    <-> forall c, gcp t = Some c -> gcp_enabled c = true ->
          isNonEmptyString (gcp_projectId c) = true).
  { destruct (gcp t) as [c |]; [| by split].
    rewrite when_nil, missingString_spec. split.
    - intros H c' E He. assert (c' = c) by congruence. subst c'.
      rewrite He in H. by apply negb_false_iff in H.
    - intros H. destruct (gcp_enabled c) eqn:He; [| done].
      simpl. by rewrite (H c eq_refl He). }
  rewrite Hl, Hd, Hs, Hg. done.
Qed.


Lemma Logger_constructed (config : LoggerConfig) m d :
  Logger config = Constructed m d ->
  valid (validateConfig config) = true
  /\ m = mergeLimits (limits config)
  /\ d = createDiscordTransport
           (discord (default noTransports (transports config))).
Proof.
  unfold Logger. destruct (valid (validateConfig config)); [| done].
  simpl. by intros [= <- <-].
Qed.

Lemma spread_positive (d : Z) (f : Field Z) :
  0 < d -> f <> Undefined -> (forall z, read f = Some z -> 0 < z) ->
  exists z, spread d f = Some z /\ 0 < z.
Proof.
  intros Hd Hu Hz. destruct f as [| | a]; [by exists d | done |].
  exists a. split; [done |]. by apply Hz.
Qed.



(** X17. A logger never has a Discord transport without endpoints: the
    transport [new Logger(config)] builds exists only when the Discord
    configuration is enabled, it carries the webhook URLs of that
    configuration, of which there is at least one, and each of
    [maxRetries], [retryDelay] and [maxMessageLength] is the configured
    number, or the default 3, 1000 and 2000 when it is left out or
    written as [undefined]. *)
Theorem Logger_discord_transport (config : LoggerConfig) (m : MergedLimits)
    (transport : DiscordWebhookTransport)
    (Hlogger : Logger config = Constructed m (Some transport)) :
  exists d urls,
    discord (default noTransports (transports config)) = Some d
    /\ discord_enabled d = true
    /\ read (discord_webhookUrls d) = Some urls
    /\ webhookUrls transport = urls
    /\ urls <> []
    /\ maxRetries transport = default 3 (read (discord_maxRetries d))
    /\ retryDelay transport = default 1000 (read (discord_retryDelay d))
    /\ maxMessageLength transport
       = default 2000 (read (discord_maxMessageLength d)).
Proof.
  apply Logger_constructed in Hlogger as (Hvalid & _ & Ht).
  apply validateConfig_checks in Hvalid as (_ & _ & _ & Hdiscord & _).
  unfold createDiscordTransport, mergedDiscordOptions in Ht.
  destruct (discord _) as [d |] eqn:Ed; [| done].
  destruct (discord_enabled d) eqn:He; [| done].
  destruct (Hdiscord d Ed He) as (urls & Hurls & Hne).
  injection Ht as ->. exists d, urls.
  split; [done |]. split; [done |]. split; [done |].
  unfold constructor. cbn [webhookUrls maxRetries retryDelay maxMessageLength
                            opt_webhookUrls opt_maxRetries opt_retryDelay
                            opt_maxMessageLength].
  split.
  { destruct (discord_webhookUrls d); simplify_eq/=; done. }
  split; [done |].
  split; [by destruct (discord_maxRetries d) |].
  split; [by destruct (discord_retryDelay d) |].
  by destruct (discord_maxMessageLength d).
Qed.

Lemma Logger_discord_transport_witness :
  exists m,
    Logger Scenarios.shopConfig
    = Constructed m
        (Some {| webhookUrls := [lit "https://discord.test/api/webhooks/A"];
                 maxRetries := 3; retryDelay := 250;
                 maxMessageLength := 2000 |}).
Proof.
  eexists.
  assert (H : Logger Scenarios.shopConfig
              = Constructed (mergeLimits (limits Scenarios.shopConfig))
                  (Some {| webhookUrls :=
                             [lit "https://discord.test/api/webhooks/A"];
                           maxRetries := 3; retryDelay := 250;
                           maxMessageLength := 2000 |})) by reflexivity.
  destruct (Logger_discord_transport _ _ _ H) as (d & urls & _).
  exact H.
Defined.

End ConfigFacts.

(** ** More on the rate limiter *)

Module RateLimiterMore.
Import Js RateLimiter.

Lemma isRateLimited_other (now : Z) (webhookUrl other : jsString)
    (st : LimiterState) :
  other <> webhookUrl ->
  snd (isRateLimited now webhookUrl st) !! other = st !! other.
Proof.
  intros Hne. unfold isRateLimited.
  destruct (st !! webhookUrl); [| done]. simpl. by rewrite lookup_insert_ne.
Qed.

Section Parsing.
Variable parseInt10 : jsString -> number.
Variable parseFloat : jsString -> number.

(** X18. The state is partitioned by URL: no operation on one URL changes
    what is stored for another, so the answers of [isRateLimited] and
    [getWaitTime] for the other URL stay what they were. *)
Theorem limiter_partition (webhookUrl other : jsString) (st : LimiterState)
    (Hother : other <> webhookUrl) :
  (forall now, snd (isRateLimited now webhookUrl st) !! other = st !! other)
  /\ (forall now headers,
        recordSuccess parseInt10 parseFloat now webhookUrl headers st !! other
        = st !! other)
  /\ (forall now retryAfter_,
        recordRateLimit now webhookUrl retryAfter_ st !! other = st !! other)
  /\ reset webhookUrl st !! other = st !! other
  /\ (forall st' t,
        st' !! other = st !! other ->
        fst (isRateLimited t other st') = fst (isRateLimited t other st)
        /\ getWaitTime t other st' = getWaitTime t other st).
Proof.
  split; [by intros now; apply isRateLimited_other |].
  split; [intros now headers; unfold recordSuccess; by rewrite lookup_insert_ne |].
  split; [intros now r; unfold recordRateLimit; by rewrite lookup_insert_ne |].
  split; [unfold reset; by rewrite lookup_delete_ne |].
  intros st' t Heq. unfold isRateLimited, getWaitTime. rewrite Heq.
  by destruct (st !! other).
Qed.

(** X19. After a success the endpoint is limited exactly when the response
    reported a remaining count that is not positive, whatever was stored
    for it before, a penalty included; a response without the
    [x-ratelimit-remaining] header leaves it not limited, with 29
    requests remaining. *)
Theorem recordSuccess_lifts_penalty (now later : Z) (webhookUrl : jsString)
    (headers : Headers) (st : LimiterState) :
  let st' := recordSuccess parseInt10 parseFloat now webhookUrl headers st in
  (exists state, st' !! webhookUrl = Some state
                 /\ isLimited state = false /\ retryAfter state = Num 0)
  /\ fst (isRateLimited later webhookUrl st')
     = match header "x-ratelimit-remaining" headers with
       | Some h => nle (parseInt10 h) (Num 0)
       | None => false
       end
  /\ (header "x-ratelimit-remaining" headers = None ->
      remaining <$> st' !! webhookUrl = Some (Num 29)
      /\ getWaitTime later webhookUrl st' = Num 0).
Proof.
  intros st'. subst st'. unfold recordSuccess.
  split; [eexists; by rewrite lookup_insert_eq |].
  split.
  - unfold isRateLimited. rewrite lookup_insert_eq. simpl.
    by destruct (header "x-ratelimit-remaining" headers).
  - intros Hnone. rewrite Hnone. unfold getWaitTime.
    by rewrite lookup_insert_eq.
Qed.
End Parsing.

Lemma limiter_partition_witness :
  Scenarios.hookB <> Scenarios.hookA
  /\ recordRateLimit 0 Scenarios.hookA (Num 5) ∅ !! Scenarios.hookB = None
  /\ fst (isRateLimited 100 Scenarios.hookB
            (recordRateLimit 0 Scenarios.hookA (Num 5) ∅)) = false.
Proof.
  assert (Hne : Scenarios.hookB <> Scenarios.hookA) by done.
  destruct (limiter_partition Host.parseNumber Host.parseNumber
              Scenarios.hookA Scenarios.hookB ∅ Hne)
    as (_ & _ & Hrecord & _ & Hsame).
  split; [exact Hne |]. split; [by rewrite Hrecord |].
  destruct (Hsame (recordRateLimit 0 Scenarios.hookA (Num 5) ∅) 100
              (Hrecord 0 (Num 5))) as [-> _].
  reflexivity.
Defined.

Lemma recordSuccess_lifts_penalty_witness :
  fst (isRateLimited 100 Scenarios.hookA
         (recordSuccess Host.parseNumber Host.parseNumber 50 Scenarios.hookA ∅
            (recordRateLimit 0 Scenarios.hookA (Num 60) ∅)))
  = false.
Proof.
  destruct (recordSuccess_lifts_penalty Host.parseNumber Host.parseNumber
              50 100 Scenarios.hookA ∅
              (recordRateLimit 0 Scenarios.hookA (Num 60) ∅))
    as (_ & -> & _).
  reflexivity.
Defined.

(** X20. [getWaitTime] never answers a negative number, and answers 0 for a
    URL without state; whenever [isRateLimited] answers false, the wait
    time at that instant, on the state the call leaves, is 0. *)
Theorem getWaitTime_consistent (now : Z) (webhookUrl : jsString)
    (st : LimiterState) :
  (forall z, getWaitTime now webhookUrl st = Num z -> 0 <= z)
  /\ (st !! webhookUrl = None -> getWaitTime now webhookUrl st = Num 0)
  /\ (fst (isRateLimited now webhookUrl st) = false ->
      getWaitTime now webhookUrl (snd (isRateLimited now webhookUrl st))
      = Num 0).
Proof.
  split.
  { unfold getWaitTime. destruct (st !! webhookUrl) as [state |];
      [| by intros z [= <-]].
    assert (Hmax : forall z, nmax (Num 0) (nsub (resetAt state) (Num now))
                             = Num z -> 0 <= z).
    { intros z. destruct (resetAt state); simpl; [done |].
      intros [= <-]. lia. }
    destruct (isLimited state); [done |].
    destruct (nle (remaining state) (Num 0)); [done |]. by intros z [= <-]. }
  split.
  { intros H. unfold getWaitTime. by rewrite H. }
  unfold isRateLimited, getWaitTime.
  destruct (st !! webhookUrl) as [state |] eqn:E; simpl; [| by rewrite E].
  rewrite lookup_insert_eq. intros H.
  apply orb_false_iff in H as [-> ->]. done.
Qed.

Lemma getWaitTime_consistent_witness :
  fst (isRateLimited 7000 Scenarios.hookA
         (recordRateLimit 0 Scenarios.hookA (Num 5) ∅)) = false
  /\ getWaitTime 7000 Scenarios.hookA
       (snd (isRateLimited 7000 Scenarios.hookA
               (recordRateLimit 0 Scenarios.hookA (Num 5) ∅)))
     = Num 0.
Proof.
  split; [reflexivity |].
  apply (getWaitTime_consistent 7000 Scenarios.hookA
           (recordRateLimit 0 Scenarios.hookA (Num 5) ∅)).
  reflexivity.
Defined.

(** X21. While a penalty recorded by [recordRateLimit] lasts, the endpoint is
    reported limited, the stored state is left as it is, and the wait
    time is what remains of the delay, a positive number of
    milliseconds. *)
Theorem penalty_in_force (recordedAt delay now : Z) (webhookUrl : jsString)
    (st : LimiterState)
    (Hduring : now < recordedAt + delay * 1000) :
  let st' := recordRateLimit recordedAt webhookUrl (Num delay) st in
  isRateLimited now webhookUrl st' = (true, st')
  /\ getWaitTime now webhookUrl st'
     = Num (recordedAt + delay * 1000 - now)
  /\ 0 < recordedAt + delay * 1000 - now.
Proof.
  intros st'. subst st'. unfold recordRateLimit, isRateLimited, getWaitTime.
  rewrite lookup_insert_eq. simpl.
  replace (recordedAt + delay * 1000 <=? now) with false
    by (symmetry; apply Z.leb_gt; lia).
  simpl. rewrite insert_insert_eq.
  split; [done |]. split; [| lia]. f_equal. lia.
Qed.

Lemma penalty_in_force_witness :
  1200 < 0 + 5 * 1000
  /\ getWaitTime 1200 Scenarios.hookA
       (recordRateLimit 0 Scenarios.hookA (Num 5) ∅) = Num 3800.
Proof.
  assert (H : 1200 < 0 + 5 * 1000) by lia.
  split; [exact H |].
  by destruct (penalty_in_force 0 5 1200 Scenarios.hookA ∅ H) as (_ & -> & _).
Defined.

End RateLimiterMore.

(** ** More on the webhook transport *)

Module TransportMore.
Import Js Types Truncation RateLimiter Transport TransportFacts.

Lemma sleptFor_app (t1 t2 : list Effect) :
  sleptFor (t1 ++ t2) = sleptFor t1 + sleptFor t2.
Proof.
  induction t1 as [| e t1 IH]; simpl; [done |].
  destruct e; simpl; rewrite ?IH; lia.
Qed.

Lemma sleptFor_nonneg (t : list Effect) : 0 <= sleptFor t.
Proof.
  induction t as [| e t IH]; simpl; [done |].
  destruct e as [| ms |]; try done. destruct ms; simpl; lia.
Qed.

Lemma runs_refl (allowed : Effect -> Prop) (w : World) : runs allowed 0 w w.
Proof.
  exists []. rewrite app_nil_r. simpl. repeat split; [lia | constructor | lia].
Qed.

Lemma runs_trans (allowed : Effect -> Prop) (n1 n2 : nat)
    (w1 w2 w3 : World) :
  runs allowed n1 w1 w2 -> runs allowed n2 w2 w3 ->
  runs allowed (n1 + n2) w1 w3.
Proof.
  intros (t1 & Ht1 & Hn1 & Ha1 & Hc1) (t2 & Ht2 & Hn2 & Ha2 & Hc2).
  exists (t1 ++ t2). split; [by rewrite Ht2, Ht1, app_assoc |].
  split; [rewrite posts_app, length_app; lia |].
  split; [by apply Forall_app |].
  rewrite sleptFor_app. lia.
Qed.

Lemma runs_weaken (allowed allowed' : Effect -> Prop) (n n' : nat)
    (w w' : World) :
  (forall e, allowed e -> allowed' e) -> (n <= n')%nat ->
  runs allowed n w w' -> runs allowed' n' w w'.
Proof.
  intros Himp Hle (t & Ht & Hn & Ha & Hc). exists t.
  split; [done |]. split; [lia |]. split; [| done].
  eapply Forall_impl; eauto.
Qed.

Lemma runs_sleep (allowed : Effect -> Prop) (ms : number) (w : World) :
  allowed (Sleep ms) -> runs allowed 0 w (sleep ms w).
Proof.
  intros Ha. exists [Sleep ms]. simpl.
  repeat split; [lia | by repeat constructor | lia].
Qed.

Lemma runs_issue (allowed : Effect -> Prop) (u c : jsString) (w : World) :
  allowed (Post u c) -> runs allowed 1 w (issue (Post u c) w).
Proof.
  intros Ha. exists [Post u c]. simpl.
  repeat split; [lia | by repeat constructor | lia].
Qed.

Lemma runs_setLimiter (allowed : Effect -> Prop) (n : nat)
    (st : LimiterState) (w w' : World) :
  runs allowed n w w' -> runs allowed n w (setLimiter st w').
Proof. intros (t & H). by exists t. Qed.

Lemma runs_await (allowed : Effect -> Prop) (u : jsString) (w : World) :
  (forall ms, allowed (Sleep ms)) -> runs allowed 0 w (awaitRateLimit u w).
Proof.
  intros Ha. unfold awaitRateLimit.
  destruct (isRateLimited _ _ _) as [limited st].
  destruct limited; [| apply runs_setLimiter, runs_refl].
  destruct (ngt _ _); [| apply runs_setLimiter, runs_refl].
  apply (runs_trans _ 0 0 w (setLimiter st w)).
  - apply runs_setLimiter, runs_refl.
  - by apply runs_sleep.
Qed.

Section WithHost.
Variable parseInt10 : jsString -> number.
Variable parseFloat : jsString -> number.
Variable numberToString : number -> jsString.
Variable axios_post : list Effect -> jsString -> jsString -> PostOutcome.
Variable this : DiscordWebhookTransport.

Local Abbreviation attempts :=
  (attempts parseInt10 parseFloat axios_post this).
Local Abbreviation sendToWebhook :=
  (sendToWebhook parseInt10 parseFloat axios_post this).
Local Abbreviation tryWebhooks :=
  (tryWebhooks parseInt10 parseFloat axios_post this).
Local Abbreviation sendToDiscord :=
  (sendToDiscord parseInt10 parseFloat numberToString axios_post this).
Local Abbreviation log :=
  (log parseInt10 parseFloat numberToString axios_post this).
Local Abbreviation formatMessage := (formatMessage numberToString this).
Local Abbreviation getRetryAfter := (getRetryAfter parseFloat).

Lemma attempts_runs (u c : jsString) (budget : nat) :
  forall attempt w,
    runs (postOrSleep u c) budget w (fst (attempts budget attempt u c w)).
Proof.
  assert (Hs : forall ms, postOrSleep u c (Sleep ms)) by (right; by eexists).
  assert (Hp : postOrSleep u c (Post u c)) by by left.
  induction budget as [| budget IH]; intros k w; [apply runs_refl |].
  assert (Hstep : forall w', runs (postOrSleep u c) 1 w w' ->
            runs (postOrSleep u c) (S budget) w
              (fst (attempts budget (k + 1) u c w'))).
  { intros w' Hw'. apply (runs_trans _ 1 budget w w'); [done | apply IH]. }
  assert (Hpost : runs (postOrSleep u c) 1 w
                    (issue (Post u c) (awaitRateLimit u w))).
  { apply (runs_trans _ 0 1 w (awaitRateLimit u w));
      [by apply runs_await | by apply runs_issue]. }
  assert (Hslept : forall ms st,
            runs (postOrSleep u c) 1 w
              (sleep ms (setLimiter st (issue (Post u c) (awaitRateLimit u w))))).
  { intros ms st.
    apply (runs_trans _ 1 0 w (setLimiter st (issue (Post u c)
                                                (awaitRateLimit u w))));
      [by apply runs_setLimiter | by apply runs_sleep]. }
  assert (Hback : forall ms,
            runs (postOrSleep u c) 1 w
              (sleep ms (issue (Post u c) (awaitRateLimit u w)))).
  { intros ms.
    apply (runs_trans _ 1 0 w (issue (Post u c) (awaitRateLimit u w)));
      [done | by apply runs_sleep]. }
  simpl.
  destruct (axios_post _ u c) as [resp | [r |] |]; simpl;
    repeat case_bool_decide;
    repeat match goal with
           | |- context [(?a <=? ?b) && (?c <? ?d)] =>
             destruct ((a <=? b) && (c <? d))
           end;
    simpl;
    first
      [ apply Hstep; first [apply Hslept | apply Hback]
      | eapply runs_weaken; [done | | first
          [ apply runs_setLimiter, Hpost | apply Hpost ]]; lia ].
Qed.

(** X22. Whatever the network answers, [sendToWebhook] makes at most
    [maxRetries] requests; it only extends the trace, and only by
    requests to the one URL carrying the one message and by sleeps; and
    the clock moves on by exactly the time slept, never back. *)
Theorem sendToWebhook_within_budget (webhookUrl content : jsString)
    (w : World) :
  runs (postOrSleep webhookUrl content) (Z.to_nat (maxRetries this)) w
    (fst (sendToWebhook webhookUrl content w))
  /\ now w <= now (fst (sendToWebhook webhookUrl content w)).
Proof.
  pose proof (attempts_runs webhookUrl content (Z.to_nat (maxRetries this))
                0 w) as H.
  split; [exact H |]. unfold Transport.sendToWebhook.
  destruct H as (t & _ & _ & _ & ->). pose proof (sleptFor_nonneg t). lia.
Qed.



(** *** What a reported outcome means *)

Lemma answers_app (before t1 t2 : list Effect) :
  answers axios_post before (t1 ++ t2)
  = answers axios_post before t1 ++ answers axios_post (before ++ t1) t2.
Proof.
  revert before. induction t1 as [| e t1 IH]; intros before; simpl.
  - by rewrite app_nil_r.
  - destruct e; simpl; rewrite IH, <- ?app_assoc; done.
Qed.

Lemma unfulfilled_app (before t1 t2 : list Effect) :
  unfulfilled axios_post before (t1 ++ t2)
  <-> unfulfilled axios_post before t1
      /\ unfulfilled axios_post (before ++ t1) t2.
Proof. unfold unfulfilled. rewrite answers_app. apply Forall_app. Qed.

Lemma verdict_prepend (c : jsString) (before t1 t2 : list Effect) ok :
  unfulfilled axios_post before t1 ->
  verdict axios_post c (before ++ t1) t2 ok ->
  verdict axios_post c before (t1 ++ t2) ok.
Proof.
  intros H1. destruct ok; simpl.
  - intros (t0 & u & r & -> & Hr & H0). exists (t1 ++ t0), u, r.
    split; [by rewrite app_assoc |]. split; [by rewrite app_assoc |].
    by apply unfulfilled_app.
  - intros H2. by apply unfulfilled_app.
Qed.

Lemma await_unfulfilled (u : jsString) (w : World) :
  exists pre,
    trace (awaitRateLimit u w) = trace w ++ pre
    /\ unfulfilled axios_post (trace w) pre.
Proof.
  destruct (awaitRateLimit_trace u w) as [H | [ms H]].
  - exists []. rewrite app_nil_r. split; [done | constructor].
  - exists [Sleep ms]. split; [done | constructor].
Qed.

Lemma attempts_verdict (u c : jsString) (budget : nat) :
  forall attempt w,
    exists t,
      trace (fst (attempts budget attempt u c w)) = trace w ++ t
      /\ verdict axios_post c (trace w) t
           (snd (attempts budget attempt u c w)).
Proof.
  induction budget as [| budget IH]; intros k w.
  { exists []. rewrite app_nil_r. split; [done | constructor]. }
  destruct (await_unfulfilled u w) as (pre & Hpre & Hun).
  (* an attempt that failed and is followed by a sleep and a retry *)
  assert (Hcontinue : forall ms w',
    isFulfilled (axios_post (trace (awaitRateLimit u w)) u c) = false ->
    trace w' = (trace (awaitRateLimit u w) ++ [Post u c]) ++ [Sleep ms] ->
    exists t,
      trace (fst (attempts budget (k + 1) u c w')) = trace w ++ t
      /\ verdict axios_post c (trace w) t
           (snd (attempts budget (k + 1) u c w'))).
  { intros ms w' Hnf Hw'.
    destruct (IH (k + 1) w') as (t' & Ht' & Hv').
    exists ((pre ++ [Post u c; Sleep ms]) ++ t').
    split.
    - rewrite Ht', Hw', Hpre. by rewrite <- !app_assoc.
    - apply verdict_prepend.
      + apply unfulfilled_app. split; [done |].
        unfold unfulfilled. simpl. rewrite <- Hpre.
        by repeat constructor.
      + replace (trace w ++ pre ++ [Post u c; Sleep ms]) with (trace w');
          [done |].
        rewrite Hw', Hpre. by rewrite <- !app_assoc. }
  simpl.
  destruct (axios_post (trace (awaitRateLimit u w)) u c)
    as [resp | [r |] |] eqn:Ho; simpl.
  - exists (pre ++ [Post u c]). split; [by rewrite Hpre, <- app_assoc |].
    exists pre, u, resp. split; [done |]. by rewrite <- Hpre.
  - destruct (bool_decide (Some (r_status r) = Some 429)).
    + apply (Hcontinue (nmul (getRetryAfter (Some r)) (Num 1000))); reflexivity.
    + destruct ((400 <=? r_status r) && (r_status r <? 500)).
      * exists (pre ++ [Post u c]). simpl.
        split; [by rewrite Hpre, <- app_assoc |].
        apply unfulfilled_app. split; [done |].
        unfold unfulfilled. simpl. rewrite <- Hpre, Ho. by repeat constructor.
      * apply (Hcontinue (Num (retryDelay this * 2 ^ k))); reflexivity.
  - apply (Hcontinue (Num (retryDelay this * 2 ^ k))); reflexivity.
  - apply (Hcontinue (Num (retryDelay this * 2 ^ k))); reflexivity.
Qed.

Lemma tryWebhooks_verdict (c : jsString) (urls : list jsString) :
  forall w,
    exists t,
      trace (fst (tryWebhooks urls c w)) = trace w ++ t
      /\ verdict axios_post c (trace w) t
           (isResolved (snd (tryWebhooks urls c w))).
Proof.
  induction urls as [| u rest IH]; intros w.
  { exists []. rewrite app_nil_r. split; [done | constructor]. }
  simpl tryWebhooks. unfold Transport.sendToWebhook.
  destruct (attempts_verdict u c (Z.to_nat (maxRetries this)) 0 w)
    as (t1 & Ht1 & Hv1).
  destruct (attempts _ 0 u c w) as [w1 ok]. simpl in Ht1, Hv1.
  destruct ok; simpl.
  - by exists t1.
  - destruct (IH w1) as (t2 & Ht2 & Hv2).
    exists (t1 ++ t2). split; [by rewrite Ht2, Ht1, app_assoc |].
    apply verdict_prepend; [done |]. by rewrite <- Ht1.
Qed.

(** X24. The outcome a dispatch reports is the truth about the network: the
    promise of [sendToDiscord] is fulfilled only if the last thing the
    dispatch did was a request that the network fulfilled, every request
    before it having been rejected; and it is rejected only if every
    request the dispatch made was rejected. *)
Theorem sendToDiscord_verdict (info : LogEntry) (w : World) :
  exists t,
    trace (fst (sendToDiscord info w)) = trace w ++ t
    /\ match snd (sendToDiscord info w) with
       | Resolved =>
         exists t0 u r,
           t = t0 ++ [Post u (formatMessage info)]
           /\ axios_post (trace w ++ t0) u (formatMessage info) = Fulfilled r
           /\ Forall (fun o => isFulfilled o = false)
                (answers axios_post (trace w) t0)
       | Rejected _ =>
         Forall (fun o => isFulfilled o = false)
           (answers axios_post (trace w) t)
       end.
Proof.
  unfold Transport.sendToDiscord.
  destruct (tryWebhooks_verdict (formatMessage info) (webhookUrls this) w)
    as (t & Ht & Hv).
  exists t. split; [done |].
  by destruct (snd (tryWebhooks _ _ _)).
Qed.

(** *** No budget *)

(** X25. With [maxRetries] zero or negative no request is ever made: every
    endpoint fails at once, the dispatch is rejected without touching the
    trace, the clock or the rate limiter, and [log] of a flagged entry
    adds only the ['error'] event. *)
Theorem no_budget_no_request (Hbudget : maxRetries this <= 0) :
  (forall webhookUrl content w,
     sendToWebhook webhookUrl content w = (w, false))
  /\ (forall info w,
        sendToDiscord info w
        = (w, Rejected (lit "All Discord webhook URLs failed")))
  /\ (forall info w,
        truthy (sendDiscordWebhook info) = true ->
        log info w
        = (callback (issue (Emit allFailed) (setImmediate (Logged info) w)),
           Normal)).
Proof.
  assert (Hsend : forall u c w, sendToWebhook u c w = (w, false)).
  { intros u c w. unfold Transport.sendToWebhook.
    by replace (Z.to_nat (maxRetries this)) with 0%nat by lia. }
  assert (Htry : forall urls c w,
            tryWebhooks urls c w
            = (w, Rejected (lit "All Discord webhook URLs failed"))).
  { induction urls as [| u rest IH]; intros c w; [done |].
    simpl. by rewrite Hsend. }
  split; [done |]. split; [intros info w; apply Htry |].
  intros info w Hflag. unfold Transport.log, Transport.sendToDiscord.
  by rewrite Hflag, Htry.
Qed.

(** *** The delay of a 429, again *)

(** X26. [getRetryAfter] always returns a number, never NaN: a header that
    does not parse counts as no header (the body is consulted next), and
    without a response the delay is 2 seconds. *)
Theorem getRetryAfter_is_a_number (response : option Response) :
  isNaN (getRetryAfter response) = false
  /\ getRetryAfter None = Num 2
  /\ (forall r h,
        response = Some r ->
        header "retry-after" (r_headers r) = Some h ->
        isNaN (parseFloat h) = true ->
        getRetryAfter response
        = getRetryAfter
            (Some {| r_status := r_status r;
                     r_headers := delete (lit "retry-after") (r_headers r);
                     r_data := r_data r |})).
Proof.
  assert (Hbody : forall r : Response,
    isNaN (if truthy (r_data r) && isObjectTag (typeof (r_data r))
           then match getProp (lit "retry_after") (r_data r) with
                | JsNumber n => if truthyNumber n then n else Num 2
                | _ => Num 2
                end
           else Num 2) = false).
  { intros r. destruct (_ && _); [| done].
    destruct (getProp _ _) as [| | | n | | | | |]; try done.
    by destruct n as [| z]; [| destruct (truthyNumber (Num z))]. }
  split.
  { unfold Transport.getRetryAfter. destruct response as [r |]; [| done].
    simpl. destruct (header "retry-after" (r_headers r)) as [h |]; [| done].
    destruct (isNaN (parseFloat h)) eqn:E; simpl; [apply Hbody | done]. }
  split; [done |].
  intros r h -> Hh Hnan. unfold Transport.getRetryAfter. simpl.
  rewrite Hh, Hnan. simpl. unfold header. by rewrite lookup_delete_eq.
Qed.

(** *** An endpoint that is down *)

Lemma attempts_backs_off budget attempt webhookUrl content w :
  backsOff (axios_post (trace (awaitRateLimit webhookUrl w)) webhookUrl
              content) = true ->
  attempts (S budget) attempt webhookUrl content w
  = attempts budget (attempt + 1) webhookUrl content
      (sleep (Num (retryDelay this * 2 ^ attempt))
         (issue (Post webhookUrl content) (awaitRateLimit webhookUrl w))).
Proof.
  intros H. simpl.
  destruct (axios_post _ webhookUrl content) as [resp | [r |] |];
    simpl in *; [done | | done ..].
  apply andb_true_iff in H as [H1 H2].
  apply negb_true_iff in H1, H2. rewrite H2.
  rewrite bool_decide_eq_false_2; [done |].
  intros [= E]. rewrite E in H1. done.
Qed.

Lemma attempts_down (webhookUrl content : jsString)
    (Hdown : forall t, backsOff (axios_post t webhookUrl content) = true)
    (Hdelay : 0 <= retryDelay this) (budget : nat) :
  forall attempt w,
    0 <= attempt ->
    limiter w !! webhookUrl = None ->
    attempts budget attempt webhookUrl content w
    = ({| now := now w
                 + retryDelay this
                   * (2 ^ (attempt + Z.of_nat budget) - 2 ^ attempt);
          limiter := limiter w;
          trace := trace w ++ backoffRun this webhookUrl content budget attempt;
          immediates := immediates w;
          callbacks := callbacks w |},
       false).
Proof.
  induction budget as [| budget IH]; intros k w Hk Hnone.
  - simpl. rewrite Z.add_0_r, Z.sub_diag, Z.mul_0_r, Z.add_0_r, app_nil_r.
    by destruct w.
  - rewrite attempts_backs_off by apply Hdown.
    rewrite (awaitRateLimit_unknown webhookUrl w Hnone).
    rewrite IH; [| lia | done]. simpl. f_equal. f_equal.
    + replace (k + Z.of_nat (S budget))
        with (k + 1 + Z.of_nat budget) by lia.
      assert (0 <= retryDelay this * 2 ^ k) by
        (apply Z.mul_nonneg_nonneg; [done | apply Z.pow_nonneg; lia]).
      rewrite Z.max_r by done.
      rewrite (Z.pow_add_r 2 k 1) by lia. change (2 ^ 1) with 2.
      generalize (2 ^ (k + 1 + Z.of_nat budget)), (2 ^ k). intros. lia.
    + by rewrite <- !app_assoc.
Qed.

(** X27. An endpoint the rate limiter holds nothing about, and that answers
    every request with a failure that is retried (a 5xx, no response, an
    exception), uses the whole budget: [maxRetries] requests, each
    followed by its backoff, the last one too; the rate limiter is left
    as it was, and the endpoint costs [retryDelay * (2^maxRetries - 1)]
    milliseconds of sleeping before the next endpoint is tried. *)
Theorem endpoint_down_cost (webhookUrl content : jsString) (w : World)
    (Hdown : forall t, backsOff (axios_post t webhookUrl content) = true)
    (Hfresh : limiter w !! webhookUrl = None)
    (Hdelay : 0 <= retryDelay this) :
  let n := Z.to_nat (maxRetries this) in
  let w' := fst (sendToWebhook webhookUrl content w) in
  snd (sendToWebhook webhookUrl content w) = false
  /\ trace w' = trace w ++ backoffRun this webhookUrl content n 0
  /\ length (posts (backoffRun this webhookUrl content n 0)) = n
  /\ limiter w' = limiter w
  /\ now w' = now w + retryDelay this * (2 ^ Z.of_nat n - 1).
Proof.
  intros n w'. subst w'. unfold Transport.sendToWebhook. fold n.
  rewrite (attempts_down webhookUrl content Hdown Hdelay n 0 w) by done.
  simpl. split; [done |]. split; [done |]. split; [| done].
  generalize 0. induction n as [| n IH]; intros k; simpl; [done |].
  by rewrite IH.
Qed.

End WithHost.

Lemma endpoint_down_cost_witness :
  let this := Scenarios.transportFor [Scenarios.hookA] in
  let w' :=
    fst (sendToWebhook Host.parseNumber Host.parseNumber
           Scenarios.primaryDown this Scenarios.hookA (lit "alert")
           Scenarios.freshWorld) in
  0 <= retryDelay this
  /\ now w' = 7000
  /\ length (posts (trace w')) = 3%nat.
Proof.
  intros this w'.
  assert (Hdelay : 0 <= retryDelay this) by (simpl; lia).
  destruct (endpoint_down_cost Host.parseNumber Host.parseNumber
              Scenarios.primaryDown this Scenarios.hookA (lit "alert")
              Scenarios.freshWorld)
    as (_ & Htrace & _ & _ & Hnow); [done .. |].
  split; [exact Hdelay |]. split; [exact Hnow |].
  subst w'. rewrite Htrace. reflexivity.
Defined.

Lemma no_budget_no_request_witness :
  let this :=
    {| webhookUrls := [Scenarios.hookA]; maxRetries := 0; retryDelay := 1000;
       maxMessageLength := 2000 |} in
  maxRetries this <= 0
  /\ trace
       (fst (log Host.parseNumber Host.parseNumber Host.numberToString
               Scenarios.primaryDown this Scenarios.paymentEntry
               Scenarios.freshWorld))
     = [Emit allFailed].
Proof.
  intros this.
  assert (Hbudget : maxRetries this <= 0) by (simpl; lia).
  destruct (no_budget_no_request Host.parseNumber Host.parseNumber
              Host.numberToString Scenarios.primaryDown this Hbudget)
    as (_ & _ & Hlog).
  split; [exact Hbudget |].
  by rewrite (Hlog Scenarios.paymentEntry Scenarios.freshWorld eq_refl).
Defined.

Lemma getRetryAfter_is_a_number_witness :
  getRetryAfter Host.parseNumber
    (Some {| r_status := 429;
             r_headers := {[ lit "retry-after" := lit "soon" ]};
             r_data := JsObject [(lit "retry_after", JsNumber (Num 7))] |})
  = Num 7.
Proof.
  destruct (getRetryAfter_is_a_number Host.parseNumber
              (Some {| r_status := 429;
                       r_headers := {[ lit "retry-after" := lit "soon" ]};
                       r_data :=
                         JsObject [(lit "retry_after", JsNumber (Num 7))] |}))
    as (_ & _ & Hfallback).
  rewrite (Hfallback _ (lit "soon") eq_refl); reflexivity.
Defined.

End TransportMore.

Module ObjectDepthFacts.
Import Js ObjectDepth.
Local Open Scope nat_scope.

Section Walk.
Variable heap : loc -> HeapObject.

Lemma mapItems_Forall (P : Output -> Prop)
    (f : Value -> gset loc -> Output * gset loc) :
  (forall v s, P (fst (f v s))) ->
  forall items s, Forall P (fst (mapItems f items s)).
Proof.
  intros Hf. induction items as [| item rest IH]; intros s; simpl; [done |].
  specialize (Hf item s). destruct (f item s) as [o s1].
  specialize (IH s1). destruct (mapItems f rest s1) as [os s2].
  by constructor.
Qed.

Lemma mapEntries_Forall (P : Output -> Prop)
    (f : Value -> gset loc -> Output * gset loc) :
  (forall v s, P (fst (f v s))) ->
  forall entries s,
    Forall (fun e => P (snd e)) (fst (mapEntries f entries s)).
Proof.
  intros Hf. induction entries as [| [key value] rest IH]; intros s; simpl;
    [done |].
  specialize (Hf value s). destruct (f value s) as [o s1].
  specialize (IH s1). destruct (mapEntries f rest s1) as [os s2].
  by constructor.
Qed.

Lemma walk_nesting (levels : nat) :
  forall obj seen, nesting (fst (walk heap levels obj seen)) <= levels.
Proof.
  induction levels as [| levels IH]; intros [p | l] seen; simpl; try lia.
  - by destruct (decide (l ∈ seen)).
  - destruct (decide (l ∈ seen)); simpl; [lia |].
    destruct (heap l) as [items | entries].
    + pose proof (mapItems_Forall (fun o => nesting o <= levels)
                    (walk heap levels) IH items ({[l]} ∪ seen)) as H.
      destruct (mapItems _ items _) as [os s2]. simpl in *.
      apply le_n_S. induction H; simpl; lia.
    + pose proof (mapEntries_Forall (fun o => nesting o <= levels)
                    (walk heap levels) IH entries ({[l]} ∪ seen)) as H.
      destruct (mapEntries _ entries _) as [os s2]. simpl in *.
      apply le_n_S. induction H; simpl; lia.
Qed.

(** X28. The copy [truncateObjectDepth] returns nests arrays and objects
    at most [maxDepth - currentDepth] deep, whatever the heap: shared,
    cyclic or deeper. With [currentDepth >= maxDepth] it has no array and
    no object at all. *)
Theorem truncateObjectDepth_nesting (obj : Value) (maxDepth currentDepth : Z)
    (seen : gset loc) :
  (Z.of_nat (nesting (fst (truncateObjectDepth heap obj maxDepth currentDepth
                             seen)))
   <= Z.max 0 (maxDepth - currentDepth))%Z.
Proof.
  unfold truncateObjectDepth.
  pose proof (walk_nesting (Z.to_nat (maxDepth - currentDepth)) obj seen).
  lia.
Qed.

Lemma mapItems_accounted (f : Value -> gset loc -> Output * gset loc) :
  (forall v s, accounted s (f v s)) ->
  forall items s,
    s ⊆ snd (mapItems f items s)
    /\ size (snd (mapItems f items s))
       = size s
         + foldr (fun i m => containers i + m) 0 (fst (mapItems f items s)).
Proof.
  intros Hf. induction items as [| item rest IH]; intros s; simpl;
    [split; [done | lia] |].
  destruct (Hf item s) as [Hsub Hsize]. destruct (f item s) as [o s1].
  destruct (IH s1) as [Hsub' Hsize']. destruct (mapItems f rest s1) as [os s2].
  simpl in *. split; [by etrans | lia].
Qed.

Lemma mapEntries_accounted (f : Value -> gset loc -> Output * gset loc) :
  (forall v s, accounted s (f v s)) ->
  forall entries s,
    s ⊆ snd (mapEntries f entries s)
    /\ size (snd (mapEntries f entries s))
       = size s
         + foldr (fun e m => containers (snd e) + m) 0
             (fst (mapEntries f entries s)).
Proof.
  intros Hf. induction entries as [| [key value] rest IH]; intros s; simpl;
    [split; [done | lia] |].
  destruct (Hf value s) as [Hsub Hsize]. destruct (f value s) as [o s1].
  destruct (IH s1) as [Hsub' Hsize'].
  destruct (mapEntries f rest s1) as [os s2].
  simpl in *. split; [by etrans | lia].
Qed.

Lemma walk_accounted (levels : nat) :
  forall obj seen, accounted seen (walk heap levels obj seen).
Proof.
  unfold accounted.
  induction levels as [| levels IH]; intros [p | l] seen; simpl;
    try (split; [done | lia]).
  - destruct (decide (l ∈ seen)); simpl; (split; [done | lia]).
  - destruct (decide (l ∈ seen)) as [| Hnew]; simpl; [split; [done | lia] |].
    assert (Hone : size ({[l]} ∪ seen) = S (size seen)).
    { rewrite size_union; [by rewrite size_singleton |].
      by apply disjoint_singleton_l. }
    destruct (heap l) as [items | entries].
    + destruct (mapItems_accounted (walk heap levels) IH items ({[l]} ∪ seen)) as [Hsub Hsize].
      destruct (mapItems _ items _) as [os s2]. simpl in *.
      split; [by etrans; [apply union_subseteq_r |] | lia].
    + destruct (mapEntries_accounted (walk heap levels) IH entries
                  ({[l]} ∪ seen))
        as [Hsub Hsize].
      destruct (mapEntries _ entries _) as [os s2]. simpl in *.
      split; [by etrans; [apply union_subseteq_r |] | lia].
Qed.

(** X29. [truncateObjectDepth] copies each object at most once: the set
    of seen objects it leaves contains the one it was given, and has
    grown by exactly one object for each array or object of the copy. *)
Theorem truncateObjectDepth_copies_once (obj : Value)
    (maxDepth currentDepth : Z) (seen : gset loc) :
  let r := truncateObjectDepth heap obj maxDepth currentDepth seen in
  seen ⊆ snd r /\ size (snd r) = size seen + containers (fst r).
Proof. apply walk_accounted. Qed.

Lemma walk_seen (levels : nat) (l : loc) (seen : gset loc) :
  l ∈ seen -> walk heap levels (Ref l) seen = (circularMarker, seen).
Proof. intros H. destruct levels; simpl; by rewrite decide_True. Qed.

Lemma walk_marks (levels : nat) (l : loc) (seen : gset loc) :
  l ∈ snd (walk heap (S levels) (Ref l) seen).
Proof.
  simpl. destruct (decide (l ∈ seen)) as [| Hnew]; [done |].
  destruct (heap l) as [items | entries].
  - destruct (mapItems_accounted (walk heap levels) (walk_accounted levels)
                items
                ({[l]} ∪ seen)) as [Hsub _].
    destruct (mapItems _ items _). simpl in *.
    apply Hsub, elem_of_union_l. by apply elem_of_singleton.
  - destruct (mapEntries_accounted (walk heap levels)
                (walk_accounted levels) entries
                ({[l]} ∪ seen)) as [Hsub _].
    destruct (mapEntries _ entries _). simpl in *.
    apply Hsub, elem_of_union_l. by apply elem_of_singleton.
Qed.

Lemma walk_array (levels : nat) (a : loc) (items : list Value)
    (seen : gset loc) :
  a ∉ seen ->
  heap a = Array items ->
  walk heap (S levels) (Ref a) seen
  = (let '(os, seen2) := mapItems (walk heap levels) items ({[a]} ∪ seen) in
     (OArray os, seen2)).
Proof. intros Hnew Harray. simpl. rewrite decide_False by done. by rewrite Harray. Qed.

Lemma mapItems_again (levels : nat) (l : loc) :
  forall items seen j,
    l ∈ seen ->
    items !! j = Some (Ref l) ->
    fst (mapItems (walk heap levels) items seen) !! j = Some circularMarker.
Proof.
  induction items as [| item rest IH]; intros seen j Hl Hj; [done |].
  simpl. destruct (walk_accounted levels item seen) as [Hsub _].
  destruct j as [| j]; simpl in Hj.
  - injection Hj as ->. rewrite walk_seen by done.
    by destruct (mapItems _ rest seen).
  - destruct (walk heap levels item seen) as [o s1]. simpl in Hsub.
    specialize (IH s1 j (Hsub _ Hl) Hj).
    by destruct (mapItems _ rest s1).
Qed.

(** X30. Sharing is reported as a cycle. An array that holds the same
    object twice, walked with at least two levels left, is copied with
    ['[Circular]'] at the second place, although nothing is circular:
    the set of seen objects is never shrunk on the way back up. *)
Theorem shared_reported_circular (a l : loc) (rest : list Value) (j : nat)
    (maxDepth currentDepth : Z) (seen : gset loc)
    (Harray : heap a = Array (Ref l :: rest))
    (Hnew : a ∉ seen)
    (Hshared : rest !! j = Some (Ref l))
    (Hlevels : (currentDepth + 2 <= maxDepth)%Z) :
  exists o os seen',
    truncateObjectDepth heap (Ref a) maxDepth currentDepth seen
    = (OArray (o :: os), seen')
    /\ os !! j = Some circularMarker.
Proof.
  unfold truncateObjectDepth.
  destruct (Z.to_nat (maxDepth - currentDepth)) as [| [| levels]] eqn:E;
    [lia .. |].
  rewrite (walk_array (S levels) a (Ref l :: rest) seen Hnew Harray).
  cbn [mapItems].
  pose proof (walk_marks levels l ({[a]} ∪ seen)) as Hl.
  destruct (walk heap (S levels) (Ref l) ({[a]} ∪ seen)) as [o s1].
  pose proof (mapItems_again (S levels) l rest s1 j Hl Hshared) as Hj.
  destruct (mapItems _ rest s1) as [os s2].
  exists o, os, s2. split; [reflexivity | exact Hj].
Qed.

End Walk.

Lemma shared_reported_circular_witness :
  exists o os seen',
    truncateObjectDepth Scenarios.sharedHeap (Ref 3%positive) 5 0 ∅
    = (OArray (o :: os), seen')
    /\ os !! 0 = Some circularMarker.
Proof.
  apply (shared_reported_circular Scenarios.sharedHeap 3%positive 2%positive
           [Ref 2%positive] 0 5 0 ∅);
    [reflexivity | set_solver | reflexivity | lia].
Defined.

End ObjectDepthFacts.
